(** * prosemirror-state: the [Transaction] class of [src/transaction.js]

    A shallow embedding of the transaction object (a [Transform] that also
    tracks the selection, the stored marks, the update bitfield and the
    metadata object), followed by the properties the specification states
    about it.

    The classes the transaction collaborates with ([Transform], [Mapping],
    [StepMap], [Selection], [Node], [Slice], [Mark], ...) live in other
    files and packages; they enter the development as the fields of the
    [Collaborators] interface, so every statement below holds for whatever
    those classes compute. Their methods are taken to return; the one
    failure of a collaborator that is followed is that of an inherited
    transform operation, which may throw after some of its steps have been
    appended. What the transaction's own code can raise (reading a property
    of [null] or [undefined]) is modelled in full. *)

From Stdlib Require Import ZArith Lia.
From stdpp Require Import base gmap strings list pretty.

Local Open Scope Z_scope.

(* ===================================================================== *)
(** ** JavaScript values *)
(* ===================================================================== *)

(** The values that reach [setMeta]/[getMeta]: a key is documented as a
    string, a [Plugin] or a [PluginKey] (objects with a [key] property), but
    JavaScript lets a caller pass anything. Numbers are kept to the integers
    below 2^53 in magnitude, which a JavaScript number holds exactly and
    prints in decimal. Objects are plain: own data properties with string
    names, nothing callable among them, the prototype adding no [key]. *)
Inductive JsVal : Type :=
| JUndefined
| JNull
| JBool (b : bool)
| JNum (n : Z) (safe : Is_true (Z.abs n <? 2 ^ 53))
| JStr (s : string)
| JObj (props : JsProps)
with JsProps : Type :=
| PNil
| PCons (name : string) (v : JsVal) (rest : JsProps).

(** Errors a call can end in. [TypeError] is the engine's, raised when a
    property is read from [null] or [undefined]; [TransformError] is the one
    an inherited transform operation raises when a step does not apply. *)
Inductive Error : Type :=
| TypeError (what : string)
| TransformError.

(** What a method hands back besides a proper value: the receiver ([return
    this]) or nothing. *)
Inductive JsRet : Type :=
| RetThis
| RetUndefined.

(** [obj[name]] for an object given by its own properties. *)
Fixpoint own_property (name : string) (props : JsProps) : JsVal :=
  match props with
  | PNil => JUndefined
  | PCons k v rest => if String.eqb k name then v else own_property name rest
  end.

(** [v.key]: reading a property of [null] or [undefined] throws; a
    primitive has no [key] property; an object yields its own one. *)
Definition get_key (v : JsVal) : Error + JsVal :=
  match v with
  | JUndefined => inl (TypeError "Cannot read property 'key' of undefined")
  | JNull => inl (TypeError "Cannot read property 'key' of null")
  | JObj props => inr (own_property "key" props)
  | JBool _ | JNum _ _ | JStr _ => inr JUndefined
  end.

(** [name] is among the own properties. *)
Fixpoint has_own (name : string) (props : JsProps) : bool :=
  match props with
  | PNil => false
  | PCons k _ rest => String.eqb k name || has_own name rest
  end.

(** The string a value becomes when it is used as a property name
    (ToPropertyKey). A primitive always has one. An object is asked for
    its [toString] and then its [valueOf]: a plain object without an own
    [toString] answers through [Object.prototype.toString]; one with an own
    [toString], which is not callable here, is left with a [valueOf] that
    is not callable either or is [Object.prototype.valueOf], which returns
    the object itself, and the conversion throws. *)
Definition to_property_key (v : JsVal) : Error + string :=
  match v with
  | JUndefined => inr "undefined"
  | JNull => inr "null"
  | JBool true => inr "true"
  | JBool false => inr "false"
  | JNum n _ => inr (pretty n)
  | JStr s => inr s
  | JObj props =>
      if has_own "toString" props
      then inl (TypeError "Cannot convert object to primitive value")
      else inr "[object Object]"
  end.

(** [typeof v == "string"] *)
Definition is_string (v : JsVal) : bool :=
  match v with JStr _ => true | _ => false end.

(* ===================================================================== *)
(** ** The update bitfield *)
(* ===================================================================== *)

(** JavaScript's bit operators work on the 32-bit two's complement reading
    of their operands. *)
Definition ToInt32 (z : Z) : Z := (z + 2 ^ 31) mod 2 ^ 32 - 2 ^ 31.

Definition js_or (a b : Z) : Z := Z.lor (ToInt32 a) (ToInt32 b).
Definition js_and (a b : Z) : Z := Z.land (ToInt32 a) (ToInt32 b).
Definition js_not (a : Z) : Z := Z.lnot (ToInt32 a).

Definition UPDATED_SEL : Z := 1.
Definition UPDATED_MARKS : Z := 2.
Definition UPDATED_SCROLL : Z := 4.

(* ===================================================================== *)
(** ** Collaborators *)
(* ===================================================================== *)

(** A [Mapping] as [mapping.slice] builds it: the shared array of step maps
    and the window [from, to) of it that is active. *)
Record Mapping (SM : Type) : Type := mkMapping {
  m_maps : list SM;
  m_from : Z;
  m_to : Z
}.
Arguments mkMapping {SM}.
Arguments m_maps {SM}.
Arguments m_from {SM}.
Arguments m_to {SM}.

(** The maps that are active in a mapping: those in [from, to). *)
Definition active_maps {SM : Type} (m : Mapping SM) : list SM :=
  take (Z.to_nat (m_to m - m_from m)) (drop (Z.to_nat (m_from m)) (m_maps m)).

(** What an inherited transform operation ([replaceRange], [deleteRange],
    ...) does to its receiver: it applies steps one after the other, handing
    each with the document it produced to [this.addStep], and either returns
    [this] or throws once a step fails to apply. *)
Record Edit (S D : Type) : Type := mkEdit {
  appended : list (S * D);
  completes : bool
}.
Arguments mkEdit {S D}.
Arguments appended {S D}.
Arguments completes {S D}.

(** One call of the function given to [StepMap.forEach]:
    [(from, to, newFrom, newTo)]. *)
Definition Span : Type := (Z * Z * Z * Z)%type.

Definition span_newTo (s : Span) : Z := let '(_, _, _, newTo) := s in newTo.

(** What the transaction uses of the classes around it.
    - [step_getMap step] is [step.getMap()], read by [Transform.addStep];
      [stepMap_forEach map] lists, in order, the calls [map.forEach(f)]
      makes to [f].
    - [replaceRange d from to slice] is what [this.replaceRange(from, to,
      slice)] does when [this.doc] is [d]; likewise [replaceRangeWith] and
      [deleteRange].
    - [doc_resolve d pos] is [d.resolve(pos)]; [rpos_marks $pos after] is
      [$pos.marks(after)], with [None] for a call without argument.
    - [schema_text d text marks] is [d.type.schema.text(text, marks)], with
      [None] for a call without marks; [node_mark node marks] is
      [node.mark(marks)].
    - [node_lastChild], [slice_lastChild] ([slice.content.lastChild]) answer
      [None] for [null]; [slice_openRight] is [slice.openRight].
    - [mark_addToSet mark set] is [mark.addToSet(set)];
      [mark_removeFromSet mark set] is [mark.removeFromSet(set)] for a mark
      or a mark type.
    - [sel_from], [sel_to], [sel_head] ([None] for [null]), [sel_rfrom]
      ([$from]) and [sel_rhead] ([$head]) are the properties of a selection;
      [sel_map s d mapping] is [s.map(d, mapping)] and [sel_near $pos bias]
      is [Selection.near($pos, bias)]. *)
Class Collaborators : Type := {
  Doc : Type;
  Step : Type;
  StepMap : Type;
  ResolvedPos : Type;
  Mark : Type;
  MarkType : Type;
  Node : Type;
  Slice : Type;
  Selection : Type;
  (* prosemirror-transform *)
  step_getMap : Step -> StepMap;
  stepMap_forEach : StepMap -> list Span;
  replaceRange : Doc -> Z -> Z -> Slice -> Edit Step Doc;
  replaceRangeWith : Doc -> Z -> Z -> Node -> Edit Step Doc;
  deleteRange : Doc -> Z -> Z -> Edit Step Doc;
  (* prosemirror-model *)
  doc_resolve : Doc -> Z -> ResolvedPos;
  rpos_marks : ResolvedPos -> option bool -> list Mark;
  schema_text : Doc -> string -> option (list Mark) -> Node;
  node_mark : Node -> list Mark -> Node;
  node_isInline : Node -> bool;
  node_isTextblock : Node -> bool;
  node_lastChild : Node -> option Node;
  slice_lastChild : Slice -> option Node;
  slice_openRight : Slice -> Z;
  mark_addToSet : Mark -> list Mark -> list Mark;
  mark_removeFromSet : Mark + MarkType -> list Mark -> list Mark;
  (* ./selection *)
  sel_from : Selection -> Z;
  sel_to : Selection -> Z;
  sel_head : Selection -> option Z;
  sel_rfrom : Selection -> ResolvedPos;
  sel_rhead : Selection -> ResolvedPos;
  sel_map : Selection -> Doc -> Mapping StepMap -> Selection;
  sel_near : ResolvedPos -> Z -> Selection
}.

(** [Mark.none] *)
Definition Mark_none `{Collaborators} : list Mark := [].

(* ===================================================================== *)
(** ** The transaction object *)
(* ===================================================================== *)

Section Transaction.
Context `{C : Collaborators}.

(** The editor state a transaction is created from ([./state]); only the
    three fields the constructor reads. *)
Record EditorState : Type := mkEditorState {
  st_doc : Doc;
  st_selection : Selection;
  st_storedMarks : option (list Mark)
}.

(** The fields of a [Transaction]: those of [Transform] ([doc], [steps],
    [docs], [mapping.maps]) and its own. *)
Record Transaction : Type := mkTransaction {
  doc : Doc;
  steps : list Step;
  docs : list Doc;
  maps : list StepMap;
  time : Z;
  curSelection : Selection;
  curSelectionFor : Z;
  storedMarks : option (list Mark);
  updated : Z;
  meta : gmap string JsVal
}.

Definition set_doc (d : Doc) (tr : Transaction) : Transaction :=
  mkTransaction d (steps tr) (docs tr) (maps tr) (time tr) (curSelection tr)
    (curSelectionFor tr) (storedMarks tr) (updated tr) (meta tr).
Definition set_steps (l : list Step) (tr : Transaction) : Transaction :=
  mkTransaction (doc tr) l (docs tr) (maps tr) (time tr) (curSelection tr)
    (curSelectionFor tr) (storedMarks tr) (updated tr) (meta tr).
Definition set_docs (l : list Doc) (tr : Transaction) : Transaction :=
  mkTransaction (doc tr) (steps tr) l (maps tr) (time tr) (curSelection tr)
    (curSelectionFor tr) (storedMarks tr) (updated tr) (meta tr).
Definition set_maps (l : list StepMap) (tr : Transaction) : Transaction :=
  mkTransaction (doc tr) (steps tr) (docs tr) l (time tr) (curSelection tr)
    (curSelectionFor tr) (storedMarks tr) (updated tr) (meta tr).
Definition set_time (t : Z) (tr : Transaction) : Transaction :=
  mkTransaction (doc tr) (steps tr) (docs tr) (maps tr) t (curSelection tr)
    (curSelectionFor tr) (storedMarks tr) (updated tr) (meta tr).
Definition set_curSelection (s : Selection) (tr : Transaction) : Transaction :=
  mkTransaction (doc tr) (steps tr) (docs tr) (maps tr) (time tr) s
    (curSelectionFor tr) (storedMarks tr) (updated tr) (meta tr).
Definition set_curSelectionFor (n : Z) (tr : Transaction) : Transaction :=
  mkTransaction (doc tr) (steps tr) (docs tr) (maps tr) (time tr) (curSelection tr)
    n (storedMarks tr) (updated tr) (meta tr).
Definition set_storedMarks (m : option (list Mark)) (tr : Transaction) : Transaction :=
  mkTransaction (doc tr) (steps tr) (docs tr) (maps tr) (time tr) (curSelection tr)
    (curSelectionFor tr) m (updated tr) (meta tr).
Definition set_updated (u : Z) (tr : Transaction) : Transaction :=
  mkTransaction (doc tr) (steps tr) (docs tr) (maps tr) (time tr) (curSelection tr)
    (curSelectionFor tr) (storedMarks tr) u (meta tr).
Definition set_meta (m : gmap string JsVal) (tr : Transaction) : Transaction :=
  mkTransaction (doc tr) (steps tr) (docs tr) (maps tr) (time tr) (curSelection tr)
    (curSelectionFor tr) (storedMarks tr) (updated tr) m.

(** [this.steps.length] *)
Definition steps_length (tr : Transaction) : Z := Z.of_nat (length (steps tr)).

(** *** Methods as state transformers that may throw *)

(** A call ends normally with a value, or abruptly with an error; either
    way the receiver is left in some state (a throw does not roll back the
    assignments made before it). *)
Inductive Outcome (A : Type) : Type :=
| Ok (a : A) (tr : Transaction)
| Throw (e : Error) (tr : Transaction).
Arguments Ok {A}.
Arguments Throw {A}.

Definition M (A : Type) : Type := Transaction -> Outcome A.

Definition ret {A} (a : A) : M A := fun tr => Ok a tr.

Definition bind {A B} (m : M A) (k : A -> M B) : M B :=
  fun tr => match m tr with
            | Ok a tr' => k a tr'
            | Throw e tr' => Throw e tr'
            end.

Definition throw {A} (e : Error) : M A := fun tr => Throw e tr.

(** Read the receiver. *)
Definition this : M Transaction := fun tr => Ok tr tr.

(** An assignment to fields of the receiver. *)
Definition assign (f : Transaction -> Transaction) : M unit :=
  fun tr => Ok tt (f tr).

(** The state a call leaves the receiver in. *)
Definition final {A} (o : Outcome A) : Transaction :=
  match o with Ok _ tr => tr | Throw _ tr => tr end.

End Transaction.

Arguments Ok {C A}.
Arguments Throw {C A}.

Declare Scope js_scope.
Delimit Scope js_scope with js.
Notation "'let*' x ':=' m 'in' k" := (bind m (fun x => k))
  (at level 10, x pattern, m at level 200, k at level 200) : js_scope.
Notation "m ';;' k" := (bind m (fun _ => k))
  (at level 100, k at level 200, right associativity) : js_scope.

(* ===================================================================== *)
(** ** The methods of [Transaction] *)
(* ===================================================================== *)

Section Methods.
Context `{C : Collaborators}.
Local Open Scope js_scope.

(** A computation that touches no field of the receiver but may throw. *)
Definition lift {A} (r : Error + A) : M A :=
  match r with
  | inl e => throw e
  | inr a => ret a
  end.

(** [constructor(state)]; [now] is what [Date.now()] answered.
    [super(state.doc)] starts the transform with no steps and an empty
    mapping; [Object.create(null)] is the empty metadata object. *)
Definition constructor (state : EditorState) (now : Z) : Transaction :=
  {| doc := st_doc state;
     steps := [];
     docs := [];
     maps := [];
     time := now;
     curSelection := st_selection state;
     curSelectionFor := 0;
     storedMarks := st_storedMarks state;
     updated := 0;
     meta := ∅ |}.

(** [this.mapping.slice(from)]: the same maps, active from [from] to the
    end. *)
Definition mapping_slice (ms : list StepMap) (from : Z) : Mapping StepMap :=
  mkMapping ms from (Z.of_nat (length ms)).

(** [get selection()], with the function that stands for [Selection.map]
    made explicit. *)
Definition selection_via
    (mapSel : Selection -> Doc -> Mapping StepMap -> Selection) : M Selection :=
  let* tr := this in
  (if curSelectionFor tr <? steps_length tr
   then
     assign (set_curSelection
               (mapSel (curSelection tr) (doc tr)
                       (mapping_slice (maps tr) (curSelectionFor tr)))) ;;
     assign (fun t => set_curSelectionFor (steps_length t) t)
   else ret tt) ;;
  let* tr' := this in
  ret (curSelection tr').

(** [get selection()] *)
Definition selection : M Selection := selection_via sel_map.

(** [setSelection(selection)] *)
Definition setSelection (s : Selection) : M JsRet :=
  assign (set_curSelection s) ;;
  assign (fun t => set_curSelectionFor (steps_length t) t) ;;
  assign (fun t => set_updated
                     (js_and (js_or (updated t) UPDATED_SEL) (js_not UPDATED_MARKS)) t) ;;
  assign (set_storedMarks None) ;;
  ret RetThis.

(** [get selectionSet()] *)
Definition selectionSet (tr : Transaction) : bool :=
  js_and (updated tr) UPDATED_SEL >? 0.

(** [setStoredMarks(marks)] *)
Definition setStoredMarks (marks : option (list Mark)) : M JsRet :=
  assign (set_storedMarks marks) ;;
  assign (fun t => set_updated (js_or (updated t) UPDATED_MARKS) t) ;;
  ret RetThis.

(** [get storedMarksSet()] *)
Definition storedMarksSet (tr : Transaction) : bool :=
  js_and (updated tr) UPDATED_MARKS >? 0.

(** [Transform.prototype.addStep(step, doc)], reached through [super]. *)
Definition Transform_addStep (step : Step) (d : Doc) : M unit :=
  assign (fun t => set_docs (docs t ++ [doc t]) t) ;;
  assign (fun t => set_steps (steps t ++ [step]) t) ;;
  assign (fun t => set_maps (maps t ++ [step_getMap step]) t) ;;
  assign (set_doc d).

(** [addStep(step, doc)] *)
Definition addStep (step : Step) (d : Doc) : M JsRet :=
  Transform_addStep step d ;;
  assign (fun t => set_updated (js_and (updated t) (js_not UPDATED_MARKS)) t) ;;
  assign (set_storedMarks None) ;;
  ret RetUndefined.

(** The steps of an inherited operation, each appended through the
    overridden [addStep]. *)
Fixpoint addSteps (l : list (Step * Doc)) : M unit :=
  match l with
  | [] => ret tt
  | (step, d) :: rest => addStep step d ;; addSteps rest
  end.

(** An inherited transform operation called on the transaction: what it
    does is decided by the document it finds. *)
Definition inherited (op : Doc -> Edit Step Doc) : M JsRet :=
  let* tr := this in
  let e := op (doc tr) in
  addSteps (appended e) ;;
  (if completes e then ret RetThis else throw TransformError).

(** [setTime(time)] *)
Definition setTime (t : Z) : M JsRet :=
  assign (set_time t) ;;
  ret RetThis.

(** [tr.mapping.maps[tr.mapping.maps.length - 1]] *)
Definition last_map (ms : list StepMap) : option StepMap := last ms.

(** [let end; map.forEach((_from, _to, _newFrom, newTo) => end = newTo)]:
    the value of [end] after the calls, [None] while it is still
    [undefined]. *)
Definition insertion_end (spans : list Span) : option Z :=
  fold_left (fun (_ : option Z) (s : Span) => Some (span_newTo s)) spans None.

(** [selectionToInsertionEnd(tr, startLen, bias)] *)
Definition selectionToInsertionEnd (startLen bias : Z) : M unit :=
  let* tr := this in
  if steps_length tr =? startLen then ret tt
  else
    match last_map (maps tr) with
    | None => throw (TypeError "Cannot read property 'forEach' of undefined")
    | Some map =>
        match insertion_end (stepMap_forEach map) with
        | Some e => setSelection (sel_near (doc_resolve (doc tr) e) bias) ;; ret tt
        | None => ret tt
        end
    end.

(** The loop of [replaceSelection]:
    [for (i = 0; i < slice.openRight; i++) { lastParent = lastNode; lastNode = lastNode.lastChild }],
    run [n] more times from [(lastNode, lastParent)]. *)
Fixpoint descend (n : nat) (lastNode lastParent : option Node)
  : Error + (option Node * option Node) :=
  match n with
  | O => inr (lastNode, lastParent)
  | S n' =>
      match lastNode with
      | None => inl (TypeError "Cannot read property 'lastChild' of null")
      | Some node => descend n' (node_lastChild node) (Some node)
      end
  end.

(** [(lastNode ? lastNode.isInline : lastParent && lastParent.isTextblock) ? -1 : 1] *)
Definition placement_bias (lastNode lastParent : option Node) : Z :=
  if match lastNode with
     | Some node => node_isInline node
     | None =>
         match lastParent with
         | Some parent => node_isTextblock parent
         | None => false
         end
     end
  then -1 else 1.

(** [replaceSelection(slice)] *)
Definition replaceSelection (slice : Slice) : M JsRet :=
  let* sel := selection in
  let* tr := this in
  let startLen := steps_length tr in
  inherited (fun d => replaceRange d (sel_from sel) (sel_to sel) slice) ;;
  let* last := lift (descend (Z.to_nat (slice_openRight slice))
                             (slice_lastChild slice) None) in
  selectionToInsertionEnd startLen (placement_bias (fst last) (snd last)) ;;
  ret RetThis.

(** [inheritMarks !== false] *)
Definition not_false (v : JsVal) : bool :=
  match v with JBool false => false | _ => true end.

(** [replaceSelectionWith(node, inheritMarks)] *)
Definition replaceSelectionWith (node : Node) (inheritMarks : JsVal) : M JsRet :=
  let* sel := selection in
  let* tr := this in
  let startLen := steps_length tr in
  let node :=
    if not_false inheritMarks
    then node_mark node
           match storedMarks tr with
           | Some marks => marks
           | None => rpos_marks (sel_rfrom sel) (Some (sel_to sel >? sel_from sel))
           end
    else node in
  inherited (fun d => replaceRangeWith d (sel_from sel) (sel_to sel) node) ;;
  selectionToInsertionEnd startLen (if node_isInline node then -1 else 1) ;;
  ret RetThis.

(** [deleteSelection()] *)
Definition deleteSelection : M JsRet :=
  let* sel := selection in
  inherited (fun d => deleteRange d (sel_from sel) (sel_to sel)).

(** [insertText(text, from, to = from)]; [None] is an argument left out. *)
Definition insertText (text : string) (from to : option Z) : M JsRet :=
  let* tr := this in
  match from with
  | None =>
      if String.eqb text "" then deleteSelection
      else replaceSelectionWith (schema_text (doc tr) text None) (JBool true)
  | Some from =>
      let to := default from to in
      if String.eqb text "" then inherited (fun d => deleteRange d from to)
      else
        let node :=
          schema_text (doc tr) text
            (Some match storedMarks tr with
                  | Some marks => marks
                  | None => rpos_marks (doc_resolve (doc tr) from) (Some (to >? from))
                  end) in
        inherited (fun d => replaceRangeWith d from to node)
  end.

(** [typeof key == "string" ? key : key.key], as the property name it is
    used for. *)
Definition meta_key (key : JsVal) : Error + string :=
  if is_string key then to_property_key key
  else
    match get_key key with
    | inl e => inl e
    | inr k => to_property_key k
    end.

(** [setMeta(key, value)] *)
Definition setMeta (key value : JsVal) : M JsRet :=
  let* name := lift (meta_key key) in
  assign (fun t => set_meta (<[name := value]> (meta t)) t) ;;
  ret RetThis.

(** [getMeta(key)] *)
Definition getMeta (key : JsVal) : M JsVal :=
  let* name := lift (meta_key key) in
  let* tr := this in
  ret (default JUndefined (meta tr !! name)).

(** [get isGeneric()] *)
Definition isGeneric (tr : Transaction) : bool :=
  match map_to_list (meta tr) with
  | [] => true
  | _ :: _ => false
  end.

(** [scrollIntoView()] *)
Definition scrollIntoView : M JsRet :=
  assign (fun t => set_updated (js_or (updated t) UPDATED_SCROLL) t) ;;
  ret RetThis.

(** [get scrolledIntoView()] *)
Definition scrolledIntoView (tr : Transaction) : bool :=
  js_and (updated tr) UPDATED_SCROLL >? 0.

(** [currentMarks(selection)] *)
Definition currentMarks (s : Selection) : list Mark :=
  match sel_head s with
  | None => Mark_none
  | Some _ => rpos_marks (sel_rhead s) None
  end.

(** [this.storedMarks || currentMarks(this.selection)]: the getter runs
    only when [storedMarks] is [null]. *)
Definition marks_or_current : M (list Mark) :=
  let* tr := this in
  match storedMarks tr with
  | Some marks => ret marks
  | None => let* sel := selection in ret (currentMarks sel)
  end.

(** [addStoredMark(mark)] *)
Definition addStoredMark (mark : Mark) : M JsRet :=
  let* base := marks_or_current in
  assign (set_storedMarks (Some (mark_addToSet mark base))) ;;
  ret RetThis.

(** [removeStoredMark(mark)] *)
Definition removeStoredMark (mark : Mark + MarkType) : M JsRet :=
  let* base := marks_or_current in
  assign (set_storedMarks (Some (mark_removeFromSet mark base))) ;;
  ret RetThis.

End Methods.

(* ===================================================================== *)
(** ** Calls a client can make *)
(* ===================================================================== *)

Section Calls.
Context `{C : Collaborators}.
Local Open Scope js_scope.

(** Every way client code can act on a transaction: the members of the
    class, and the operations inherited from [Transform] (each one an
    [Edit] decided by the current document). *)
Inductive Call : Type :=
| CallSelection
| CallSetSelection (s : Selection)
| CallSelectionSet
| CallSetStoredMarks (marks : option (list Mark))
| CallStoredMarksSet
| CallAddStep (step : Step) (d : Doc)
| CallSetTime (t : Z)
| CallReplaceSelection (slice : Slice)
| CallReplaceSelectionWith (node : Node) (inheritMarks : JsVal)
| CallDeleteSelection
| CallInsertText (text : string) (from to : option Z)
| CallSetMeta (key value : JsVal)
| CallGetMeta (key : JsVal)
| CallIsGeneric
| CallScrollIntoView
| CallScrolledIntoView
| CallAddStoredMark (mark : Mark)
| CallRemoveStoredMark (mark : Mark + MarkType)
| CallInherited (op : Doc -> Edit Step Doc).

(** Run a call for its effect on the receiver. *)
Definition call (c : Call) : M unit :=
  match c with
  | CallSelection => selection ;; ret tt
  | CallSetSelection s => setSelection s ;; ret tt
  | CallSelectionSet => let* tr := this in let _ := selectionSet tr in ret tt
  | CallSetStoredMarks marks => setStoredMarks marks ;; ret tt
  | CallStoredMarksSet => let* tr := this in let _ := storedMarksSet tr in ret tt
  | CallAddStep step d => addStep step d ;; ret tt
  | CallSetTime t => setTime t ;; ret tt
  | CallReplaceSelection slice => replaceSelection slice ;; ret tt
  | CallReplaceSelectionWith node inheritMarks =>
      replaceSelectionWith node inheritMarks ;; ret tt
  | CallDeleteSelection => deleteSelection ;; ret tt
  | CallInsertText text from to => insertText text from to ;; ret tt
  | CallSetMeta key value => setMeta key value ;; ret tt
  | CallGetMeta key => getMeta key ;; ret tt
  | CallIsGeneric => let* tr := this in let _ := isGeneric tr in ret tt
  | CallScrollIntoView => scrollIntoView ;; ret tt
  | CallScrolledIntoView => let* tr := this in let _ := scrolledIntoView tr in ret tt
  | CallAddStoredMark mark => addStoredMark mark ;; ret tt
  | CallRemoveStoredMark mark => removeStoredMark mark ;; ret tt
  | CallInherited op => inherited op ;; ret tt
  end.

(** A client session: calls made one after the other, the client going on
    with the same object after a call that threw. *)
Fixpoint session (cs : list Call) (tr : Transaction) : Transaction :=
  match cs with
  | [] => tr
  | c :: rest => session rest (final (call c tr))
  end.

(** [setSelection] called by the client itself. *)
Definition is_setSelection (c : Call) : bool :=
  match c with CallSetSelection _ => true | _ => false end.

(** [curSelectionFor] counts steps of the log. *)
Definition selection_index_valid (tr : Transaction) : Prop :=
  0 <= curSelectionFor tr <= steps_length tr.

(** [Transform] keeps one map per step. *)
Definition maps_in_step (tr : Transaction) : Prop :=
  length (maps tr) = length (steps tr).


End Calls.

(* ===================================================================== *)
(** ** A small model of the collaborators *)
(* ===================================================================== *)

(** Documents are flat: a document is its content size, a position is a
    number, a selection is an anchor and a head. Nodes are trees that know
    whether they are inline or textblocks; a step is the list of spans its
    map reports. It serves to run the methods on concrete inputs. *)

Inductive TreeNode : Type :=
| Tree (inline textblock : bool) (leafSize : Z) (children : Forest)
with Forest : Type :=
| FNil
| FCons (first : TreeNode) (rest : Forest).

Fixpoint tree_size (t : TreeNode) : Z :=
  match t with
  | Tree inline _ leafSize children =>
      if inline then leafSize else 2 + forest_size children
  end
with forest_size (f : Forest) : Z :=
  match f with
  | FNil => 0
  | FCons first rest => tree_size first + forest_size rest
  end.

Fixpoint forest_last (f : Forest) : option TreeNode :=
  match f with
  | FNil => None
  | FCons first FNil => Some first
  | FCons _ rest => forest_last rest
  end.

Definition tree_inline (t : TreeNode) : bool :=
  match t with Tree inline _ _ _ => inline end.
Definition tree_textblock (t : TreeNode) : bool :=
  match t with Tree _ textblock _ _ => textblock end.
Definition tree_lastChild (t : TreeNode) : option TreeNode :=
  match t with Tree _ _ _ children => forest_last children end.

Record TreeSlice : Type := mkTreeSlice {
  ts_content : Forest;
  ts_openRight : Z
}.

Record FlatSelection : Type := mkFlatSelection {
  fs_anchor : Z;
  fs_head : Z
}.

(** Replace [from, to) of a document of size [d] by content of size [sz]:
    nothing to do for an empty replacement of an empty range, a throw for a
    range outside the document, one step otherwise. *)
Definition flat_replace (d from to sz : Z) : Edit (list Span) Z :=
  if (sz =? 0) && (from =? to) then mkEdit [] true
  else if (0 <=? from) && (from <=? to) && (to <=? d)
       then mkEdit [([(from, to, from, from + sz)], d - (to - from) + sz)] true
       else mkEdit [] false.

(** A position mapped through one span, and through the spans of a map. *)
Definition map_pos_span (p : Z) (s : Span) : Z :=
  let '(from, to, newFrom, newTo) := s in
  if p <=? from then p
  else if to <=? p then p + (newTo - newFrom) - (to - from)
  else newTo.

Definition map_pos (ms : list (list Span)) (p : Z) : Z :=
  fold_left (fun q m => fold_left map_pos_span m q) ms p.

(** The model, for a transform library whose steps answer [getMap] with
    [getMap step]. *)
Definition flat (getMap : list Span -> list Span) : Collaborators :=
  {| Doc := Z;
     Step := list Span;
     StepMap := list Span;
     ResolvedPos := Z;
     Mark := string;
     MarkType := string;
     Node := TreeNode;
     Slice := TreeSlice;
     Selection := FlatSelection;
     step_getMap := getMap;
     stepMap_forEach := fun m => m;
     replaceRange := fun d from to slice =>
       flat_replace d from to (forest_size (ts_content slice));
     replaceRangeWith := fun d from to node =>
       flat_replace d from to (tree_size node);
     deleteRange := fun d from to => flat_replace d from to 0;
     doc_resolve := fun _ p => p;
     rpos_marks := fun _ _ => [];
     schema_text := fun _ text _ => Tree true false (Z.of_nat (String.length text)) FNil;
     node_mark := fun node _ => node;
     node_isInline := tree_inline;
     node_isTextblock := tree_textblock;
     node_lastChild := tree_lastChild;
     slice_lastChild := fun slice => forest_last (ts_content slice);
     slice_openRight := ts_openRight;
     mark_addToSet := fun m set => set ++ [m];
     mark_removeFromSet := fun m set =>
       filter (fun x => x <> match m with inl a => a | inr b => b end) set;
     sel_from := fun s => Z.min (fs_anchor s) (fs_head s);
     sel_to := fun s => Z.max (fs_anchor s) (fs_head s);
     sel_head := fun s => Some (fs_head s);
     sel_rfrom := fun s => Z.min (fs_anchor s) (fs_head s);
     sel_rhead := fs_head;
     sel_map := fun s _ m =>
       mkFlatSelection (map_pos (active_maps m) (fs_anchor s))
                       (map_pos (active_maps m) (fs_head s));
     sel_near := fun p _ => mkFlatSelection p p |}.

Definition flat_lib : Collaborators := flat (fun spans => spans).

(** The same model over a transform library whose steps report no mapped
    span (as [StepMap.empty] does). *)
Definition inert_lib : Collaborators := flat (fun _ => []).

(* ===================================================================== *)
(** ** Vocabulary of the properties *)
(* ===================================================================== *)

Section Vocabulary.
Context `{C : Collaborators}.

(** A method keeps a property of the receiver, whether it returns or
    throws. *)
Definition preserves {A} (P : Transaction -> Prop) (m : M A) : Prop :=
  forall tr, P tr -> P (final (m tr)).

(** The receiver right after [addStep(step, d)]. *)
Definition after_addStep (step : Step) (d : Doc) (tr : Transaction) : Transaction :=
  set_storedMarks None
    (set_updated (js_and (updated tr) (js_not UPDATED_MARKS))
       (set_doc d
          (set_maps (maps tr ++ [step_getMap step])
             (set_steps (steps tr ++ [step])
                (set_docs (docs tr ++ [doc tr]) tr))))).

(** The receiver right after [setSelection(s)]. *)
Definition after_setSelection (s : Selection) (tr : Transaction) : Transaction :=
  set_storedMarks None
    (set_updated (js_and (js_or (updated tr) UPDATED_SEL) (js_not UPDATED_MARKS))
       (set_curSelectionFor (steps_length tr) (set_curSelection s tr))).

(** While no step has been appended, the cached selection is still [s0],
    valid for zero steps. *)
Definition untouched_selection (s0 : Selection) (tr : Transaction) : Prop :=
  maps_in_step tr
  /\ (steps tr = [] -> curSelection tr = s0 /\ curSelectionFor tr = 0).

(** A key that is neither a string nor an object whose [key] is one. *)
Definition malformed_key (key : JsVal) : bool :=
  negb (is_string key)
  && match get_key key with
     | inr (JStr _) => false
     | _ => true
     end.

(** [setMeta(key, value)] throws and leaves the transaction as it was. *)
Definition fails_fast (key value : JsVal) (tr : Transaction) : Prop :=
  exists e, setMeta key value tr = Throw e tr.

(** [setMeta(key, value)] returns the transaction with [value] stored under
    [name] and every other field as it was. *)
Definition stored_under (name : string) (key value : JsVal) (tr : Transaction) : Prop :=
  exists tr',
    setMeta key value tr = Ok RetThis tr'
    /\ meta tr' = <[name := value]> (meta tr)
    /\ doc tr' = doc tr /\ steps tr' = steps tr /\ docs tr' = docs tr
    /\ maps tr' = maps tr /\ time tr' = time tr
    /\ curSelection tr' = curSelection tr
    /\ curSelectionFor tr' = curSelectionFor tr
    /\ storedMarks tr' = storedMarks tr /\ updated tr' = updated tr.

(** The keys no property name can be made of: [null] and [undefined],
    whose [key] cannot be read, and an object whose [key] is an object
    with an own [toString]. *)
Definition key_without_name (key : JsVal) : bool :=
  match key with
  | JUndefined | JNull => true
  | JObj props =>
      match own_property "key" props with
      | JObj inner => has_own "toString" inner
      | _ => false
      end
  | _ => false
  end.




(** The bias [replaceSelection] hands to the placement. *)
Definition replaceSelection_bias (slice : Slice) : Error + Z :=
  match descend (Z.to_nat (slice_openRight slice)) (slice_lastChild slice) None with
  | inl e => inl e
  | inr (lastNode, lastParent) => inr (placement_bias lastNode lastParent)
  end.

(** The bias as the specification words it: backward when the node the
    descent ends at is inline, or when there is no descent and the last
    top-level node is a textblock; forward otherwise. *)
Definition bias_as_specified (slice : Slice) (bias : Z) : Prop :=
  forall lastNode lastParent,
    descend (Z.to_nat (slice_openRight slice)) (slice_lastChild slice) None
    = inr (lastNode, lastParent) ->
    bias =
    if match lastNode with Some node => node_isInline node | None => false end
       || (slice_openRight slice <=? 0)
          && match slice_lastChild slice with
             | Some node => node_isTextblock node
             | None => false
             end
    then -1 else 1.

(** What [replaceSelection(slice)] and [replaceSelectionWith(node, _)] ask
    of [Transform] for a selection [sel]. *)
Definition replaceSelection_edit (slice : Slice) (sel : Selection) (d : Doc)
  : Edit Step Doc :=
  replaceRange d (sel_from sel) (sel_to sel) slice.

(** The node [replaceSelectionWith] inserts: marked, unless [inheritMarks]
    is [false], with the stored marks or else those at [$from]. *)
Definition inserted_node (node : Node) (inheritMarks : JsVal)
    (sel : Selection) (tr : Transaction) : Node :=
  if not_false inheritMarks
  then node_mark node
         match storedMarks tr with
         | Some marks => marks
         | None => rpos_marks (sel_rfrom sel) (Some (sel_to sel >? sel_from sel))
         end
  else node.

(** Calls sorted by what they may write. *)
Definition is_setMeta (c : Call) : bool :=
  match c with CallSetMeta _ _ => true | _ => false end.

Definition is_setTime (c : Call) : bool :=
  match c with CallSetTime _ => true | _ => false end.

(** The calls that can reach [addStep]. *)
Definition is_edit (c : Call) : bool :=
  match c with
  | CallAddStep _ _ | CallReplaceSelection _ | CallReplaceSelectionWith _ _
  | CallDeleteSelection | CallInsertText _ _ _ | CallInherited _ => true
  | _ => false
  end.

(** A [setMeta] whose key can be turned into a property name. *)
Definition stores_metadata (c : Call) : bool :=
  match c with
  | CallSetMeta key _ =>
      match meta_key key with
      | inr _ => true
      | inl _ => false
      end
  | _ => false
  end.

(** The node [k] levels below [node] along last children, [None] once a
    level has no node. *)
Fixpoint last_descendant (k : nat) (node : option Node) : option Node :=
  match k with
  | O => node
  | S k' =>
      match node with
      | None => None
      | Some n => last_descendant k' (node_lastChild n)
      end
  end.

(** The log of a [Transform]: the maps are those of the steps, in order,
    and there is one earlier document per step. *)
Definition log_consistent (tr : Transaction) : Prop :=
  maps tr = step_getMap <$> steps tr
  /\ length (docs tr) = length (steps tr).

(** The steps of [tr'] extend those of [tr]. *)
Definition extends_log (tr tr' : Transaction) : Prop :=
  exists l, steps tr' = steps tr ++ l.

End Vocabulary.

(** *** Sample data *)

(** A transaction over a document of size 10 with the selection [3, 5). *)
Definition flat_state : EditorState (C := flat_lib) :=
  mkEditorState (C := flat_lib) 10 (mkFlatSelection 3 5) None.

Definition flat_tr : Transaction (C := flat_lib) :=
  constructor (C := flat_lib) flat_state 0.

(** The same after a step whose map reports no span. *)
Definition flat_tr_unmapped : Transaction (C := flat_lib) :=
  final (addStep (C := flat_lib) [] 10 flat_tr).



(** The same after a step that put two positions in at 1, selection not
    read since. *)
Definition flat_tr_pending : Transaction (C := flat_lib) :=
  final (addStep (C := flat_lib) [(1, 1, 1, 3)] 12 flat_tr).

Definition inert_tr : Transaction (C := inert_lib) :=
  constructor (C := inert_lib)
    (mkEditorState (C := inert_lib) 10 (mkFlatSelection 3 5) None) 0.

(** A transaction whose selection is collapsed at 3. *)
Definition flat_tr_collapsed : Transaction (C := flat_lib) :=
  constructor (C := flat_lib)
    (mkEditorState (C := flat_lib) 10 (mkFlatSelection 3 3) None) 0.

(** An object as a plugin key is: its [key] property is a string. *)
Definition pointer_key : JsVal := JObj (PCons "key" (JStr "pointer") PNil).

(** A paragraph holding two characters of text, and the closed slice made
    of it. *)
Definition text2 : TreeNode := Tree true false 2 FNil.
Definition paragraph : TreeNode := Tree false true 0 (FCons text2 FNil).
Definition paragraph_slice : TreeSlice := mkTreeSlice (FCons paragraph FNil) 0.

(** The paragraph left open on the right. *)
Definition open_paragraph_slice : TreeSlice := mkTreeSlice (FCons paragraph FNil) 1.

(** An empty paragraph left open on the right. *)
Definition empty_paragraph : TreeNode := Tree false true 0 FNil.
Definition open_empty_slice : TreeSlice := mkTreeSlice (FCons empty_paragraph FNil) 1.

(** The empty paragraph in a slice that claims two open levels. *)
Definition overopen_slice : TreeSlice := mkTreeSlice (FCons empty_paragraph FNil) 2.

(* ===================================================================== *)
(** ** The bitfield, bit by bit *)
(* ===================================================================== *)

Lemma ToInt32_testbit (z i : Z) :
  0 <= i < 32 -> Z.testbit (ToInt32 z) i = Z.testbit z i.
Proof.
  intros Hi. unfold ToInt32.
  rewrite <- (Z.mod_pow2_bits_low _ 32 i) by lia.
  rewrite <- (Z.mod_pow2_bits_low z 32 i) by lia.
  f_equal.
  rewrite Zminus_mod, Zmod_mod, <- Zminus_mod.
  replace (z + 2 ^ 31 - 2 ^ 31) with z by lia.
  reflexivity.
Qed.

Lemma land_pow2 (x k : Z) :
  0 <= k -> Z.land x (2 ^ k) = if Z.testbit x k then 2 ^ k else 0.
Proof.
  intros Hk. apply Z.bits_inj'. intros n Hn.
  rewrite Z.land_spec, Z.pow2_bits_eqb by lia.
  destruct (Z.eqb_spec k n) as [->|Hne].
  - destruct (Z.testbit x n); simpl.
    + rewrite Z.pow2_bits_eqb by lia. now rewrite Z.eqb_refl.
    + now rewrite Z.bits_0.
  - rewrite andb_false_r.
    destruct (Z.testbit x k).
    + rewrite Z.pow2_bits_eqb by lia. symmetry. now apply Z.eqb_neq.
    + now rewrite Z.bits_0.
Qed.

Lemma js_and_flag (u k : Z) :
  0 <= k < 31 -> (js_and u (2 ^ k) >? 0) = Z.testbit u k.
Proof.
  intros Hk. unfold js_and.
  assert (Hp : ToInt32 (2 ^ k) = 2 ^ k).
  { unfold ToInt32.
    assert (0 < 2 ^ k) by (apply Z.pow_pos_nonneg; lia).
    assert (2 ^ k < 2 ^ 31) by (apply Z.pow_lt_mono_r; lia).
    rewrite Z.mod_small; lia. }
  rewrite Hp, land_pow2, ToInt32_testbit by lia.
  assert (0 < 2 ^ k) by (apply Z.pow_pos_nonneg; lia).
  destruct (Z.testbit u k); lia.
Qed.

Lemma js_or_testbit (a b i : Z) :
  0 <= i < 32 -> Z.testbit (js_or a b) i = Z.testbit a i || Z.testbit b i.
Proof.
  intros Hi. unfold js_or. now rewrite Z.lor_spec, !ToInt32_testbit.
Qed.

Lemma js_and_testbit (a b i : Z) :
  0 <= i < 32 -> Z.testbit (js_and a b) i = Z.testbit a i && Z.testbit b i.
Proof.
  intros Hi. unfold js_and. now rewrite Z.land_spec, !ToInt32_testbit.
Qed.

Lemma js_not_testbit (a i : Z) :
  0 <= i < 32 -> Z.testbit (js_not a) i = negb (Z.testbit a i).
Proof.
  intros Hi. unfold js_not. rewrite Z.lnot_spec by lia. now rewrite ToInt32_testbit.
Qed.

(* ===================================================================== *)
(** ** Properties of the transaction *)
(* ===================================================================== *)

(** Unfold the plumbing of a method body. *)
Ltac js_run := cbv [bind ret this assign throw lift final].

Section Flags.
Context `{C : Collaborators}.

Lemma selectionSet_bit (tr : Transaction) :
  selectionSet tr = Z.testbit (updated tr) 0.
Proof. unfold selectionSet. exact (js_and_flag (updated tr) 0 ltac:(lia)). Qed.

Lemma storedMarksSet_bit (tr : Transaction) :
  storedMarksSet tr = Z.testbit (updated tr) 1.
Proof. unfold storedMarksSet. exact (js_and_flag (updated tr) 1 ltac:(lia)). Qed.

Lemma scrolledIntoView_bit (tr : Transaction) :
  scrolledIntoView tr = Z.testbit (updated tr) 2.
Proof. unfold scrolledIntoView. exact (js_and_flag (updated tr) 2 ltac:(lia)). Qed.

(** [u & ~UPDATED_MARKS] clears bit 1 and keeps bits 0 and 2. *)
Lemma clear_marks_bits (u : Z) :
  let u' := js_and u (js_not UPDATED_MARKS) in
  Z.testbit u' 0 = Z.testbit u 0 /\ Z.testbit u' 1 = false /\ Z.testbit u' 2 = Z.testbit u 2.
Proof.
  cbv zeta. rewrite !js_and_testbit, !js_not_testbit by lia.
  change (Z.testbit UPDATED_MARKS 0) with false.
  change (Z.testbit UPDATED_MARKS 1) with true.
  change (Z.testbit UPDATED_MARKS 2) with false.
  simpl. rewrite !andb_true_r, andb_false_r. auto.
Qed.

(** [u | UPDATED_SEL] sets bit 0 and keeps bits 1 and 2. *)
Lemma set_sel_bits (u : Z) :
  let u' := js_or u UPDATED_SEL in
  Z.testbit u' 0 = true /\ Z.testbit u' 1 = Z.testbit u 1 /\ Z.testbit u' 2 = Z.testbit u 2.
Proof.
  cbv zeta. rewrite !js_or_testbit by lia.
  change (Z.testbit UPDATED_SEL 0) with true.
  change (Z.testbit UPDATED_SEL 1) with false.
  change (Z.testbit UPDATED_SEL 2) with false.
  rewrite orb_true_r, !orb_false_r. auto.
Qed.

End Flags.

Section Selection.
Context `{C : Collaborators}.

Lemma active_maps_slice (ms : list StepMap) (k : Z) :
  0 <= k -> active_maps (mapping_slice ms k) = drop (Z.to_nat k) ms.
Proof.
  intros Hk. unfold active_maps, mapping_slice. simpl.
  apply take_ge. rewrite length_drop. lia.
Qed.

(** C1. Reading [selection] when [curSelectionFor < steps.length] maps the
    cached selection through the current document with the mapping slice
    that starts at [curSelectionFor] (so only the maps of the steps not yet
    accounted for are active) and returns the result; afterwards
    [curSelection] is that result, [curSelectionFor] is [steps.length], and
    every other field is as it was. When [curSelectionFor = steps.length]
    it returns the cached selection and leaves the transaction as it was. *)
Theorem selection_lazy_remap (tr : Transaction) :
  (curSelectionFor tr < steps_length tr ->
   let m := mapping_slice (maps tr) (curSelectionFor tr) in
   let s := sel_map (curSelection tr) (doc tr) m in
   (exists tr',
       selection tr = Ok s tr'
       /\ curSelection tr' = s
       /\ curSelectionFor tr' = Z.of_nat (length (steps tr))
       /\ doc tr' = doc tr /\ steps tr' = steps tr /\ docs tr' = docs tr
       /\ maps tr' = maps tr /\ time tr' = time tr
       /\ storedMarks tr' = storedMarks tr /\ updated tr' = updated tr
       /\ meta tr' = meta tr)
   /\ m_maps m = maps tr
   /\ m_from m = curSelectionFor tr
   /\ m_to m = Z.of_nat (length (maps tr))
   /\ (0 <= curSelectionFor tr ->
       active_maps m = drop (Z.to_nat (curSelectionFor tr)) (maps tr)))
  /\ (curSelectionFor tr = steps_length tr ->
      selection tr = Ok (curSelection tr) tr).
Proof.
  split.
  - intros Hlt. cbv zeta. split; [|repeat split].
    + eexists. split.
      * unfold selection, selection_via. js_run.
        apply Z.ltb_lt in Hlt. rewrite Hlt. reflexivity.
      * repeat split.
    + apply active_maps_slice.
  - intros Heq. unfold selection, selection_via. js_run.
    rewrite Heq, Z.ltb_irrefl. reflexivity.
Qed.

(** Once read, the selection is read again without mapping anything:
    whatever function stands for [Selection.map], the second read answers
    the same value and leaves the same transaction. *)
Lemma selection_reread mapSel mapSel' (tr : Transaction) :
  exists s tr1,
    selection_via mapSel tr = Ok s tr1
    /\ curSelection tr1 = s
    /\ selection_via mapSel' tr1 = Ok s tr1.
Proof.
  unfold selection_via. js_run.
  destruct (curSelectionFor tr <? steps_length tr) eqn:E.
  - eexists _, _. split; [reflexivity|]. split; [reflexivity|].
    unfold steps_length; simpl. now rewrite Z.ltb_irrefl.
  - eexists _, _. split; [reflexivity|]. split; [reflexivity|].
    now rewrite E.
Qed.

(** What [setSelection] leaves behind. *)
Lemma setSelection_final (s : Selection) (tr : Transaction) :
  setSelection s tr = Ok RetThis (after_setSelection s tr).
Proof. reflexivity. Qed.

(** C5. After [setSelection(s)]: [selectionSet] is true, reading
    [selection] answers exactly [s] and maps nothing ([curSelectionFor] is
    [steps.length], so the read does not depend on [Selection.map] and
    leaves the transaction untouched), [storedMarksSet] is false,
    [storedMarks] is [null], and the call returns the transaction itself. *)
Theorem setSelection_effect (s : Selection) (tr : Transaction) :
  exists tr',
    setSelection s tr = Ok RetThis tr'
    /\ selectionSet tr' = true
    /\ curSelectionFor tr' = steps_length tr'
    /\ selection tr' = Ok s tr'
    /\ (forall mapSel, selection_via mapSel tr' = Ok s tr')
    /\ storedMarksSet tr' = false
    /\ storedMarks tr' = None.
Proof.
  exists (after_setSelection s tr). split; [apply setSelection_final|].
  destruct (clear_marks_bits (js_or (updated tr) UPDATED_SEL)) as (H0 & H1 & _).
  destruct (set_sel_bits (updated tr)) as (S0 & _ & _).
  assert (Hread : forall mapSel,
             selection_via mapSel (after_setSelection s tr)
             = Ok s (after_setSelection s tr)).
  { intros mapSel. unfold selection_via. js_run.
    unfold steps_length; simpl. now rewrite Z.ltb_irrefl. }
  repeat split.
  - rewrite selectionSet_bit.
    cbn [after_setSelection updated set_storedMarks set_updated].
    now rewrite H0.
  - apply Hread.
  - apply Hread.
  - rewrite storedMarksSet_bit.
    cbn [after_setSelection updated set_storedMarks set_updated].
    exact H1.
Qed.

End Selection.

Section Steps.
Context `{C : Collaborators}.

Lemma addStep_final (step : Step) (d : Doc) (tr : Transaction) :
  addStep step d tr = Ok RetUndefined (after_addStep step d tr).
Proof. reflexivity. Qed.

Lemma addSteps_cons (step : Step) (d : Doc) (rest : list (Step * Doc)) (tr : Transaction) :
  addSteps ((step, d) :: rest) tr = addSteps rest (after_addStep step d tr).
Proof. reflexivity. Qed.

(** Appending steps never throws. *)
Lemma addSteps_returns (l : list (Step * Doc)) (tr : Transaction) :
  addSteps l tr = Ok tt (final (addSteps l tr)).
Proof.
  revert tr. induction l as [|[step d] rest IH]; intros tr.
  - reflexivity.
  - rewrite addSteps_cons. apply IH.
Qed.

(** An inherited operation leaves the receiver as its steps do. *)
Lemma inherited_final (op : Doc -> Edit Step Doc) (tr : Transaction) :
  final (inherited op tr) = final (addSteps (appended (op (doc tr))) tr).
Proof.
  unfold inherited. js_run.
  rewrite addSteps_returns.
  now destruct (completes (op (doc tr))).
Qed.

Lemma inherited_outcome (op : Doc -> Edit Step Doc) (tr : Transaction) :
  inherited op tr =
  if completes (op (doc tr))
  then Ok RetThis (final (addSteps (appended (op (doc tr))) tr))
  else Throw TransformError (final (addSteps (appended (op (doc tr))) tr)).
Proof.
  unfold inherited. js_run.
  rewrite addSteps_returns.
  now destruct (completes (op (doc tr))).
Qed.

Lemma after_addStep_marks (step : Step) (d : Doc) (tr : Transaction) :
  storedMarksSet (after_addStep step d tr) = false
  /\ storedMarks (after_addStep step d tr) = None.
Proof.
  split; [|reflexivity].
  rewrite storedMarksSet_bit.
  cbn [after_addStep updated set_storedMarks set_updated].
  now destruct (clear_marks_bits (updated tr)) as (_ & H1 & _).
Qed.

Lemma addSteps_marks (l : list (Step * Doc)) (tr : Transaction) :
  storedMarksSet tr = false /\ storedMarks tr = None ->
  storedMarksSet (final (addSteps l tr)) = false
  /\ storedMarks (final (addSteps l tr)) = None.
Proof.
  revert tr. induction l as [|[step d] rest IH]; intros tr H.
  - exact H.
  - rewrite addSteps_cons. apply IH, after_addStep_marks.
Qed.

(** C4. Right after a step is appended through [addStep], whatever the
    bitfield and the stored marks were before, [storedMarksSet] is false
    and [storedMarks] is [null]; the call appends exactly that step. The
    same holds after an inherited transform operation that appends at least
    one step (each goes through [addStep]), whether it then returns or
    throws; one that appends no step leaves the transaction as it was. *)
Theorem addStep_clears_stored_marks (tr : Transaction) :
  (forall step d,
      exists tr',
        addStep step d tr = Ok RetUndefined tr'
        /\ steps tr' = steps tr ++ [step]
        /\ storedMarksSet tr' = false
        /\ storedMarks tr' = None)
  /\ (forall op,
         match appended (op (doc tr)) with
         | [] => final (inherited op tr) = tr
         | _ :: _ =>
             storedMarksSet (final (inherited op tr)) = false
             /\ storedMarks (final (inherited op tr)) = None
         end).
Proof.
  split.
  - intros step d. exists (after_addStep step d tr).
    split; [apply addStep_final|]. split; [reflexivity|].
    apply after_addStep_marks.
  - intros op. rewrite inherited_final.
    destruct (appended (op (doc tr))) as [|[step d] rest].
    + reflexivity.
    + rewrite addSteps_cons. apply addSteps_marks, after_addStep_marks.
Qed.

End Steps.

(** *** Properties kept by every call *)

Section PreservesRules.
Context `{C : Collaborators}.
Variable P : Transaction -> Prop.

Lemma preserves_ret {A} (a : A) : preserves P (ret a).
Proof. intros tr H. exact H. Qed.

Lemma preserves_throw {A} (e : Error) : preserves P (throw (A := A) e).
Proof. intros tr H. exact H. Qed.

Lemma preserves_this : preserves P this.
Proof. intros tr H. exact H. Qed.

Lemma preserves_lift {A} (r : Error + A) : preserves P (lift r).
Proof. intros tr H. now destruct r. Qed.

Lemma preserves_bind {A B} (m : M A) (k : A -> M B) :
  preserves P m -> (forall a, preserves P (k a)) -> preserves P (bind m k).
Proof.
  intros Hm Hk tr H. unfold bind.
  specialize (Hm tr H).
  destruct (m tr) as [a tr'|e tr']; simpl in *.
  - now apply Hk.
  - exact Hm.
Qed.

Lemma preserves_assign (f : Transaction -> Transaction) :
  (forall tr, P tr -> P (f tr)) -> preserves P (assign f).
Proof. intros Hf tr H. now apply Hf. Qed.

End PreservesRules.

(** Split a method body along its binds and branches, closing the leaves
    with the facts in scope. *)
Ltac preserve_step :=
  first
    [ assumption
    | match goal with
      | H : forall step d, preserves _ (addStep step d) |- preserves _ (addStep _ _) => apply H
      | H : forall n b, preserves _ (selectionToInsertionEnd n b)
        |- preserves _ (selectionToInsertionEnd _ _) => apply H
      | H : forall l, preserves _ (addSteps l) |- preserves _ (addSteps _) => apply H
      | H : forall op, preserves _ (inherited op) |- preserves _ (inherited _) => apply H
      | H : forall s, preserves _ (setSelection s) |- preserves _ (setSelection _) => apply H
      end
    | apply preserves_ret
    | apply preserves_throw
    | apply preserves_this
    | apply preserves_lift
    | match goal with
      | |- preserves _ (if ?b then _ else _) => destruct b
      | |- preserves _ (match ?x with _ => _ end) => destruct x
      end
    | apply preserves_bind; [|intros ?] ].

Section Preservation.
Context `{C : Collaborators}.
Variable P : Transaction -> Prop.

(** [P] looks at the step log and the cached selection only. *)
Hypothesis P_frame :
  forall tr tr',
    steps tr' = steps tr -> maps tr' = maps tr ->
    curSelection tr' = curSelection tr -> curSelectionFor tr' = curSelectionFor tr ->
    P tr -> P tr'.
Hypothesis P_selection : preserves P selection.
Hypothesis P_addStep : forall step d, preserves P (addStep step d).
Hypothesis P_placement : forall n b, preserves P (selectionToInsertionEnd n b).

Lemma preserves_frame (f : Transaction -> Transaction) :
  (forall tr, steps (f tr) = steps tr) -> (forall tr, maps (f tr) = maps tr) ->
  (forall tr, curSelection (f tr) = curSelection tr) ->
  (forall tr, curSelectionFor (f tr) = curSelectionFor tr) ->
  preserves P (assign f).
Proof.
  intros H1 H2 H3 H4. apply preserves_assign. intros tr H.
  now apply (P_frame tr).
Qed.

Lemma preserves_addSteps (l : list (Step * Doc)) : preserves P (addSteps l).
Proof.
  induction l as [|[step d] rest IH].
  - apply preserves_ret.
  - simpl. apply preserves_bind; [apply P_addStep | intros _; exact IH].
Qed.

Lemma preserves_inherited (op : Doc -> Edit Step Doc) : preserves P (inherited op).
Proof.
  pose proof preserves_addSteps as HaddSteps.
  unfold inherited. repeat preserve_step.
Qed.

Lemma preserves_marks_or_current : preserves P marks_or_current.
Proof. unfold marks_or_current. repeat preserve_step. Qed.

(** Every call but the client's own [setSelection] keeps [P]. *)
Lemma preserves_call (c : Call) :
  is_setSelection c = false -> preserves P (call c).
Proof.
  pose proof preserves_inherited as Hinh.
  pose proof preserves_marks_or_current as Hmarks.
  intros Hc. destruct c; try discriminate Hc; clear Hc;
    cbv [call setStoredMarks setTime replaceSelection replaceSelectionWith
         deleteSelection insertText setMeta getMeta scrollIntoView
         addStoredMark removeStoredMark];
    repeat preserve_step;
    try (apply preserves_frame; reflexivity).
Qed.

(** With [setSelection] keeping it too, every call does. *)
Lemma preserves_every_call (c : Call) :
  (forall s, preserves P (setSelection s)) -> preserves P (call c).
Proof.
  intros Hset. destruct c;
    try (apply preserves_call; reflexivity).
  cbv [call]. repeat preserve_step.
Qed.

Lemma preserves_session (cs : list Call) (tr : Transaction) :
  Forall (fun c => preserves P (call c)) cs -> P tr -> P (session cs tr).
Proof.
  intros Hcs. revert tr. induction Hcs as [|c rest Hc _ IH]; intros tr H.
  - exact H.
  - simpl. apply IH, Hc, H.
Qed.

End Preservation.

Section Invariants.
Context `{C : Collaborators}.

Lemma selection_final (mapSel : Selection -> Doc -> Mapping StepMap -> Selection)
    (tr : Transaction) :
  selection_via mapSel tr =
  if curSelectionFor tr <? steps_length tr
  then
    let s := mapSel (curSelection tr) (doc tr)
                    (mapping_slice (maps tr) (curSelectionFor tr)) in
    Ok s (set_curSelectionFor (steps_length tr) (set_curSelection s tr))
  else Ok (curSelection tr) tr.
Proof.
  unfold selection_via. js_run.
  now destruct (curSelectionFor tr <? steps_length tr).
Qed.

Lemma steps_length_nonneg (tr : Transaction) : 0 <= steps_length tr.
Proof. unfold steps_length. lia. Qed.

Lemma index_valid_selection : preserves selection_index_valid selection.
Proof.
  intros tr H. unfold selection. rewrite selection_final.
  destruct (curSelectionFor tr <? steps_length tr); simpl; [|exact H].
  unfold selection_index_valid. simpl.
  pose proof (steps_length_nonneg tr). unfold steps_length in *. simpl. lia.
Qed.

Lemma index_valid_setSelection (s : Selection) :
  preserves selection_index_valid (setSelection s).
Proof.
  intros tr _. rewrite setSelection_final. simpl.
  unfold selection_index_valid, after_setSelection, steps_length. simpl. lia.
Qed.

Lemma index_valid_addStep (step : Step) (d : Doc) :
  preserves selection_index_valid (addStep step d).
Proof.
  intros tr H. rewrite addStep_final. simpl.
  unfold selection_index_valid, after_addStep, steps_length in *. simpl.
  rewrite length_app. simpl. lia.
Qed.

Lemma index_valid_placement (n b : Z) :
  preserves selection_index_valid (selectionToInsertionEnd n b).
Proof.
  pose proof index_valid_setSelection as Hset.
  unfold selectionToInsertionEnd. repeat preserve_step.
Qed.

Lemma index_valid_frame (tr tr' : Transaction) :
  steps tr' = steps tr -> maps tr' = maps tr ->
  curSelection tr' = curSelection tr -> curSelectionFor tr' = curSelectionFor tr ->
  selection_index_valid tr -> selection_index_valid tr'.
Proof.
  unfold selection_index_valid, steps_length. intros -> _ _ ->. auto.
Qed.

Lemma index_valid_call (c : Call) : preserves selection_index_valid (call c).
Proof.
  apply preserves_every_call.
  - exact index_valid_frame.
  - exact index_valid_selection.
  - exact index_valid_addStep.
  - exact index_valid_placement.
  - exact index_valid_setSelection.
Qed.

(** C6. [0 <= curSelectionFor <= steps.length] holds for a transaction as
    constructed, and every operation keeps it, whether the operation
    returns or throws: each member of the class (reading [selection],
    [setSelection], [addStep], [replaceSelection], [insertText], ...), each
    inherited transform operation (its steps go through [addStep]), the
    placement helper [selectionToInsertionEnd], and so every sequence of
    calls made on a new transaction. *)
Theorem curSelectionFor_in_range :
  (forall state now, selection_index_valid (constructor state now))
  /\ (forall c tr,
         selection_index_valid tr -> selection_index_valid (final (call c tr)))
  /\ (forall n b tr,
         selection_index_valid tr ->
         selection_index_valid (final (selectionToInsertionEnd n b tr)))
  /\ (forall state now cs,
         selection_index_valid (session cs (constructor state now))).
Proof.
  assert (H0 : forall state now, selection_index_valid (constructor state now)).
  { intros state now. unfold selection_index_valid, steps_length. simpl. lia. }
  split; [exact H0|]. split; [|split].
  - intros c tr. apply index_valid_call.
  - intros n b tr. apply index_valid_placement.
  - intros state now cs. apply preserves_session; [|apply H0].
    apply Forall_forall. intros c _. apply index_valid_call.
Qed.

(** [untouched_selection] is kept by every call but the client's own
    [setSelection]; it carries along that [Transform] keeps one map per
    step. *)
Lemma untouched_frame (s0 : Selection) (tr tr' : Transaction) :
  steps tr' = steps tr -> maps tr' = maps tr ->
  curSelection tr' = curSelection tr -> curSelectionFor tr' = curSelectionFor tr ->
  untouched_selection s0 tr -> untouched_selection s0 tr'.
Proof.
  unfold untouched_selection, maps_in_step. intros -> -> -> ->. auto.
Qed.

Lemma untouched_selection_read (s0 : Selection) :
  preserves (untouched_selection s0) selection.
Proof.
  intros tr [Hm H]. unfold selection. rewrite selection_final.
  destruct (curSelectionFor tr <? steps_length tr) eqn:E; simpl; [|now split].
  split; [exact Hm|]. simpl. intros Hnil.
  destruct (H Hnil) as [_ Hfor].
  unfold steps_length in E. rewrite Hnil, Hfor in E. discriminate E.
Qed.

Lemma untouched_addStep (s0 : Selection) (step : Step) (d : Doc) :
  preserves (untouched_selection s0) (addStep step d).
Proof.
  intros tr [Hm _]. rewrite addStep_final. simpl.
  unfold untouched_selection, maps_in_step, after_addStep in *. simpl.
  split.
  - rewrite !length_app, Hm. reflexivity.
  - intros Hnil. now destruct (steps tr).
Qed.

Lemma untouched_placement (s0 : Selection) (n b : Z) :
  preserves (untouched_selection s0) (selectionToInsertionEnd n b).
Proof.
  intros tr [Hm H]. unfold selectionToInsertionEnd. js_run.
  destruct (steps_length tr =? n); [now split|].
  destruct (last_map (maps tr)) as [map|] eqn:Elast; [|now split].
  destruct (insertion_end (stepMap_forEach map)); [|now split].
  split; [exact Hm|]. simpl. intros Hnil.
  unfold maps_in_step in Hm. rewrite Hnil in Hm.
  destruct (maps tr); [discriminate Elast | discriminate Hm].
Qed.

Lemma untouched_call (s0 : Selection) (c : Call) :
  is_setSelection c = false -> preserves (untouched_selection s0) (call c).
Proof.
  apply preserves_call.
  - exact (untouched_frame s0).
  - exact (untouched_selection_read s0).
  - exact (untouched_addStep s0).
  - exact (untouched_placement s0).
Qed.

Lemma session_index_valid (state : EditorState) (now : Z) (cs : list Call) :
  selection_index_valid (session cs (constructor state now)).
Proof.
  apply preserves_session.
  - apply Forall_forall. intros c _. apply index_valid_call.
  - unfold selection_index_valid, steps_length. simpl. lia.
Qed.

(** C7. A transaction as constructed answers the state's selection when
    [selection] is read, without mapping and without changing; so does a
    transaction to which no step has been appended by any sequence of calls
    other than the client's own [setSelection]. After any sequence of calls
    at all that appended no step, the read answers the cached selection
    (the state's, or the one the client set last) as it is. And for every
    transaction, reading [selection] a second time with nothing done in
    between returns the value of the first read and leaves the transaction
    as it is, whatever function stands for [Selection.map]: the second read
    maps nothing. *)
Theorem selection_read_is_stable :
  (forall state now mapSel,
      selection_via mapSel (constructor state now)
      = Ok (st_selection state) (constructor state now))
  /\ (forall state now cs mapSel,
         Forall (fun c => is_setSelection c = false) cs ->
         steps (session cs (constructor state now)) = [] ->
         selection_via mapSel (session cs (constructor state now))
         = Ok (st_selection state) (session cs (constructor state now)))
  /\ (forall state now cs mapSel,
         steps (session cs (constructor state now)) = [] ->
         selection_via mapSel (session cs (constructor state now))
         = Ok (curSelection (session cs (constructor state now)))
              (session cs (constructor state now)))
  /\ (forall tr mapSel,
         exists s tr1,
           selection tr = Ok s tr1
           /\ selection_via mapSel tr1 = Ok s tr1).
Proof.
  split; [|split; [|split]].
  - intros state now mapSel. reflexivity.
  - intros state now cs mapSel Hcs Hnil.
    assert (Hu : untouched_selection (st_selection state)
                   (session cs (constructor state now))).
    { apply preserves_session.
      - eapply Forall_impl; [exact Hcs|]. intros c Hc. now apply untouched_call.
      - split; [reflexivity|]. intros _. split; reflexivity. }
    destruct Hu as [_ Hu]. destruct (Hu Hnil) as [Hs Hfor].
    rewrite selection_final.
    unfold steps_length. rewrite Hfor, Hnil. simpl. now rewrite Hs.
  - intros state now cs mapSel Hnil.
    pose proof (session_index_valid state now cs) as Hv.
    rewrite selection_final.
    unfold selection_index_valid, steps_length in *. rewrite Hnil in *.
    change (Z.of_nat (length [])) with 0 in *.
    destruct (Z.ltb_spec (curSelectionFor (session cs (constructor state now))) 0);
      [lia | reflexivity].
  - intros tr mapSel.
    destruct (selection_reread sel_map mapSel tr) as (s & tr1 & H1 & _ & H2).
    exists s, tr1. split; [exact H1 | exact H2].
Qed.

End Invariants.

Section StoredMarks.
Context `{C : Collaborators}.

Lemma marks_or_current_outcome (tr : Transaction) :
  marks_or_current tr =
  match storedMarks tr with
  | Some marks => Ok marks tr
  | None =>
      match selection tr with
      | Ok sel tr1 => Ok (currentMarks sel) tr1
      | Throw e tr1 => Throw e tr1
      end
  end.
Proof.
  unfold marks_or_current. js_run.
  destruct (storedMarks tr); [reflexivity|].
  now destruct (selection tr).
Qed.

Lemma selection_keeps_updated (tr : Transaction) :
  exists sel tr1,
    selection tr = Ok sel tr1
    /\ updated tr1 = updated tr
    /\ storedMarks tr1 = storedMarks tr
    /\ meta tr1 = meta tr.
Proof.
  unfold selection. rewrite selection_final.
  destruct (curSelectionFor tr <? steps_length tr); eexists _, _; repeat split.
Qed.

(** C8. [addStoredMark(mark)] and [removeStoredMark(mark)] return the
    transaction and leave the update bitfield as it was, so [storedMarksSet]
    (and [selectionSet], [scrolledIntoView]) answer as before. The set they
    change is [storedMarks] when it is not [null]; when it is [null], the
    selection is read and the set is the marks at its head, or the empty
    set when the selection has no head. *)
Theorem stored_mark_adjustments_keep_flags (tr : Transaction) :
  (forall mark,
      exists tr',
        addStoredMark mark tr = Ok RetThis tr'
        /\ updated tr' = updated tr
        /\ storedMarksSet tr' = storedMarksSet tr
        /\ match storedMarks tr with
           | Some marks => storedMarks tr' = Some (mark_addToSet mark marks)
           | None =>
               exists sel tr1,
                 selection tr = Ok sel tr1
                 /\ storedMarks tr' =
                    Some (mark_addToSet mark
                            match sel_head sel with
                            | None => Mark_none
                            | Some _ => rpos_marks (sel_rhead sel) None
                            end)
           end)
  /\ (forall mark,
         exists tr',
           removeStoredMark mark tr = Ok RetThis tr'
           /\ updated tr' = updated tr
           /\ storedMarksSet tr' = storedMarksSet tr
           /\ match storedMarks tr with
              | Some marks => storedMarks tr' = Some (mark_removeFromSet mark marks)
              | None =>
                  exists sel tr1,
                    selection tr = Ok sel tr1
                    /\ storedMarks tr' =
                       Some (mark_removeFromSet mark
                               match sel_head sel with
                               | None => Mark_none
                               | Some _ => rpos_marks (sel_rhead sel) None
                               end)
              end).
Proof.
  destruct (selection_keeps_updated tr) as (sel & tr1 & Hsel & Hu & _ & _).
  split; intros mark.
  - unfold addStoredMark, bind at 1. rewrite marks_or_current_outcome.
    destruct (storedMarks tr) as [marks|] eqn:E.
    + js_run. eexists. split; [reflexivity|]. simpl.
      unfold storedMarksSet. simpl. auto.
    + rewrite Hsel. js_run. eexists. split; [reflexivity|]. simpl.
      unfold storedMarksSet. simpl. rewrite Hu.
      repeat split. exists sel, tr1. split; reflexivity.
  - unfold removeStoredMark, bind at 1. rewrite marks_or_current_outcome.
    destruct (storedMarks tr) as [marks|] eqn:E.
    + js_run. eexists. split; [reflexivity|]. simpl.
      unfold storedMarksSet. simpl. auto.
    + rewrite Hsel. js_run. eexists. split; [reflexivity|]. simpl.
      unfold storedMarksSet. simpl. rewrite Hu.
      repeat split. exists sel, tr1. split; reflexivity.
Qed.

End StoredMarks.

(** Go through the keys: the primitives, and the objects by their [key]
    property, an object there by whether it has an own [toString]. *)
Ltac key_cases key :=
  destruct key as [| |[|]|? ?|?|?]; simpl;
  try match goal with
      | |- context [own_property "key" ?p] =>
          destruct (own_property "key" p) as [| |[|]|? ?|?|?]; simpl;
          try match goal with
              | |- context [has_own "toString" ?i] =>
                  destruct (has_own "toString" i); simpl
              end
      end.

Section Metadata.
Context `{C : Collaborators}.

Lemma setMeta_outcome (key value : JsVal) (tr : Transaction) :
  setMeta key value tr =
  match meta_key key with
  | inl e => Throw e tr
  | inr name => Ok RetThis (set_meta (<[name := value]> (meta tr)) tr)
  end.
Proof. unfold setMeta. js_run. now destruct (meta_key key). Qed.

(** C9, as the code has it. [setMeta(key, value)] fails fast, leaving the
    transaction and its metadata as they were, exactly for the keys no
    property name can be made of: [null] and [undefined] (reading
    [key.key] throws) and an object whose [key] is an object that cannot be
    converted. For every other key the call returns the transaction with
    [value] stored and nothing else changed: under the key itself when it
    is a string; under ["undefined"] when it is a number or a boolean (they
    have no [key] property) or an object without one; and for an object
    under the string form of its [key] property, which is that string, the
    decimal form of a number, ["true"], ["false"], ["null"], or
    ["[object Object]"] for a convertible object. *)
Theorem setMeta_outcome_by_key (key value : JsVal) (tr : Transaction) :
  (fails_fast key value tr <-> key_without_name key = true)
  /\ match key with
     | JUndefined | JNull =>
         fails_fast key value tr /\ meta (final (setMeta key value tr)) = meta tr
     | JStr s => stored_under s key value tr
     | JBool _ | JNum _ _ => stored_under "undefined" key value tr
     | JObj props =>
         match own_property "key" props with
         | JUndefined => stored_under "undefined" key value tr
         | JNull => stored_under "null" key value tr
         | JBool true => stored_under "true" key value tr
         | JBool false => stored_under "false" key value tr
         | JNum n _ => stored_under (pretty n) key value tr
         | JStr s => stored_under s key value tr
         | JObj inner =>
             if has_own "toString" inner
             then fails_fast key value tr
                  /\ meta (final (setMeta key value tr)) = meta tr
             else stored_under "[object Object]" key value tr
         end
     end.
Proof.
  assert (Hrun : setMeta key value tr =
                 match meta_key key with
                 | inl e => Throw e tr
                 | inr name =>
                     Ok RetThis
                        (mkTransaction (doc tr) (steps tr) (docs tr) (maps tr) (time tr)
                           (curSelection tr) (curSelectionFor tr) (storedMarks tr)
                           (updated tr) (<[name := value]> (meta tr)))
                 end).
  { unfold setMeta. cbv [bind ret assign throw lift]. now destruct (meta_key key). }
  assert (Hstore : forall name, meta_key key = inr name -> stored_under name key value tr).
  { intros name Hk. unfold stored_under. rewrite Hrun, Hk.
    eexists. split; [reflexivity|]. repeat split. }
  assert (Hfail : forall e, meta_key key = inl e ->
                            fails_fast key value tr
                            /\ meta (final (setMeta key value tr)) = meta tr).
  { intros e Hk. unfold fails_fast. rewrite Hrun, Hk.
    split; [now exists e | reflexivity]. }
  split.
  - unfold fails_fast. rewrite Hrun. clear Hrun. unfold meta_key. split.
    + intros [e He].
      destruct key as [| |b|n safe|s|props]; simpl in *; try discriminate He;
        try reflexivity.
      destruct (own_property "key" props) as [| |b'|n safe|s|inner]; simpl in *;
        try discriminate He;
        try (destruct b'; discriminate He).
      destruct (has_own "toString" inner); [reflexivity | discriminate He].
    + intros Hk.
      destruct key as [| |b|n safe|s|props]; simpl in *; try discriminate Hk;
        try (eexists; reflexivity).
      destruct (own_property "key" props) as [| |b|n safe|s|inner]; simpl in *;
        try discriminate Hk.
      rewrite Hk. eexists; reflexivity.
  - destruct key as [| |b|n safe|s|props].
    + apply (Hfail _ eq_refl).
    + apply (Hfail _ eq_refl).
    + apply Hstore. reflexivity.
    + apply Hstore. reflexivity.
    + apply Hstore. reflexivity.
    + unfold meta_key, get_key, is_string in Hstore, Hfail.
      destruct (own_property "key" props) as [| |b|n safe|s|inner].
      * apply Hstore. reflexivity.
      * apply Hstore. reflexivity.
      * destruct b; apply Hstore; reflexivity.
      * apply Hstore. reflexivity.
      * apply Hstore. reflexivity.
      * simpl in Hstore, Hfail. destruct (has_own "toString" inner).
        -- apply (Hfail _ eq_refl).
        -- apply Hstore. reflexivity.
Qed.

End Metadata.

(** C9, as the specification has it, fails: the number 42 is neither a
    string nor has a string for [key], yet [setMeta(42, "v")] returns
    normally and stores ["v"] under ["undefined"]. *)
Lemma setMeta_number_key_is_stored :
  malformed_key (JNum 42 I) = true
  /\ ~ fails_fast (C := flat_lib) (JNum 42 I) (JStr "v") flat_tr
  /\ (exists tr', setMeta (C := flat_lib) (JNum 42 I) (JStr "v") flat_tr = Ok RetThis tr')
  /\ meta (final (setMeta (C := flat_lib) (JNum 42 I) (JStr "v") flat_tr)) !! "undefined"
     = Some (JStr "v").
Proof.
  split; [reflexivity|]. split; [|split].
  - intros [e He]. discriminate He.
  - eexists. reflexivity.
  - vm_compute. reflexivity.
Qed.

Section Placement.
Context `{C : Collaborators}.

Lemma insertion_end_from (spans : list Span) (acc : option Z) :
  fold_left (fun (_ : option Z) (s : Span) => Some (span_newTo s)) spans acc
  = match last spans with
    | Some sp => Some (span_newTo sp)
    | None => acc
    end.
Proof.
  revert acc. induction spans as [|s rest IH]; intros acc; [reflexivity|].
  simpl fold_left. rewrite IH.
  destruct rest as [|s' rest']; [reflexivity|].
  rewrite last_cons_cons.
  destruct (last (s' :: rest')) eqn:E; [reflexivity|].
  now apply last_None in E.
Qed.

(** [end] is the output end of the last span the map reports. *)
Lemma insertion_end_last (spans : list Span) :
  insertion_end spans = span_newTo <$> last spans.
Proof.
  unfold insertion_end. rewrite insertion_end_from. now destruct (last spans).
Qed.

Lemma placement_outcome (startLen bias : Z) (tr : Transaction) :
  selectionToInsertionEnd startLen bias tr =
  if steps_length tr =? startLen then Ok tt tr
  else
    match last_map (maps tr) with
    | None => Throw (TypeError "Cannot read property 'forEach' of undefined") tr
    | Some map =>
        match last (stepMap_forEach map) with
        | Some sp =>
            Ok tt (after_setSelection
                     (sel_near (doc_resolve (doc tr) (span_newTo sp)) bias) tr)
        | None => Ok tt tr
        end
    end.
Proof.
  unfold selectionToInsertionEnd. js_run.
  destruct (steps_length tr =? startLen); [reflexivity|].
  destruct (last_map (maps tr)) as [map|]; [|reflexivity].
  rewrite insertion_end_last.
  now destruct (last (stepMap_forEach map)).
Qed.



Lemma after_setSelection_flags (s : Selection) (tr : Transaction) :
  selectionSet (after_setSelection s tr) = true
  /\ storedMarksSet (after_setSelection s tr) = false
  /\ scrolledIntoView (after_setSelection s tr) = scrolledIntoView tr.
Proof.
  rewrite selectionSet_bit, storedMarksSet_bit, !scrolledIntoView_bit.
  cbn [after_setSelection updated set_storedMarks set_updated].
  destruct (clear_marks_bits (js_or (updated tr) UPDATED_SEL)) as (H0 & H1 & H2).
  destruct (set_sel_bits (updated tr)) as (S0 & _ & S2).
  rewrite H0, H1, H2, S0, S2. auto.
Qed.


End Placement.


Section ReplaceSelection.
Context `{C : Collaborators}.

Lemma after_addStep_flags (step : Step) (d : Doc) (tr : Transaction) :
  selectionSet (after_addStep step d tr) = selectionSet tr
  /\ scrolledIntoView (after_addStep step d tr) = scrolledIntoView tr.
Proof.
  rewrite !selectionSet_bit, !scrolledIntoView_bit.
  cbn [after_addStep updated set_storedMarks set_updated].
  destruct (clear_marks_bits (updated tr)) as (H0 & _ & H2). now rewrite H0, H2.
Qed.

(** What a run of appended steps changes and what it keeps. *)
Lemma addSteps_effect (l : list (Step * Doc)) (tr : Transaction) :
  let tr' := final (addSteps l tr) in
  steps tr' = steps tr ++ l.*1
  /\ maps tr' = maps tr ++ (step_getMap <$> l.*1)
  /\ curSelection tr' = curSelection tr
  /\ curSelectionFor tr' = curSelectionFor tr
  /\ selectionSet tr' = selectionSet tr
  /\ scrolledIntoView tr' = scrolledIntoView tr
  /\ meta tr' = meta tr.
Proof.
  revert tr. induction l as [|[step d] rest IH]; intros tr; cbv zeta.
  - simpl. rewrite !app_nil_r. repeat split.
  - rewrite addSteps_cons.
    destruct (IH (after_addStep step d tr)) as (H1 & H2 & H3 & H4 & H5 & H6 & H7).
    destruct (after_addStep_flags step d tr) as [F0 F2].
    rewrite H1, H2, H3, H4, H5, H6, H7, F0, F2.
    cbn [after_addStep steps maps curSelection curSelectionFor meta set_storedMarks
         set_updated set_doc set_maps set_steps set_docs fmap list_fmap fst].
    rewrite <- !app_assoc. repeat split.
Qed.

(** After steps ending in one whose map reports no span, the placement has
    nothing to do. *)
Lemma placement_after_unmapped_step
    (before : list (Step * Doc)) (step : Step) (d : Doc) (bias : Z) (tr : Transaction) :
  stepMap_forEach (step_getMap step) = [] ->
  selectionToInsertionEnd (steps_length tr) bias
    (final (addSteps (before ++ [(step, d)]) tr))
  = Ok tt (final (addSteps (before ++ [(step, d)]) tr)).
Proof.
  intros Hspans. rewrite placement_outcome.
  destruct (addSteps_effect (before ++ [(step, d)]) tr) as (H1 & H2 & _).
  unfold steps_length at 1. rewrite H1, H2.
  rewrite !fmap_app, length_app, length_app. simpl.
  replace (Z.of_nat (length (steps tr) + (length before.*1 + 1)) =? steps_length tr)
    with false by (symmetry; apply Z.eqb_neq; unfold steps_length; lia).
  unfold last_map. rewrite app_assoc, last_snoc, Hspans. reflexivity.
Qed.

(** C10. When steps were appended and the map of the most recent one
    reports no span, the placement leaves the transaction as it was: the
    cached selection, [curSelectionFor] and the three flags, like every
    other field, are unchanged, because [setSelection] does not run. So a
    [replaceSelection] or [replaceSelectionWith] whose edit appends steps,
    the last with such a map, ends (returning or throwing) in the state the
    edit itself produced: [curSelection] is the selection read at the start
    of the call, [curSelectionFor] is what that read left, [selectionSet]
    and [scrolledIntoView] answer as before the call, and [storedMarksSet]
    is false, as [addStep] left it. *)
Theorem placement_skipped_without_spans :
  (forall startLen bias tr map,
      steps_length tr <> startLen ->
      last_map (maps tr) = Some map ->
      stepMap_forEach map = [] ->
      selectionToInsertionEnd startLen bias tr = Ok tt tr)
  /\ (forall slice tr sel tr1 before step d,
         selection tr = Ok sel tr1 ->
         appended (replaceSelection_edit slice sel (doc tr1)) = before ++ [(step, d)] ->
         stepMap_forEach (step_getMap step) = [] ->
         let tr2 := final (addSteps (before ++ [(step, d)]) tr1) in
         final (replaceSelection slice tr) = tr2
         /\ curSelection tr2 = sel
         /\ curSelectionFor tr2 = curSelectionFor tr1
         /\ selectionSet tr2 = selectionSet tr
         /\ scrolledIntoView tr2 = scrolledIntoView tr
         /\ storedMarksSet tr2 = false)
  /\ (forall node inheritMarks tr sel tr1 before step d,
         selection tr = Ok sel tr1 ->
         appended (replaceRangeWith (doc tr1) (sel_from sel) (sel_to sel)
                     (inserted_node node inheritMarks sel tr1))
         = before ++ [(step, d)] ->
         stepMap_forEach (step_getMap step) = [] ->
         let tr2 := final (addSteps (before ++ [(step, d)]) tr1) in
         final (replaceSelectionWith node inheritMarks tr) = tr2
         /\ curSelection tr2 = sel
         /\ curSelectionFor tr2 = curSelectionFor tr1
         /\ selectionSet tr2 = selectionSet tr
         /\ scrolledIntoView tr2 = scrolledIntoView tr
         /\ storedMarksSet tr2 = false).
Proof.
  assert (Hstate : forall tr sel tr1 l,
             selection tr = Ok sel tr1 -> l <> [] ->
             let tr2 := final (addSteps l tr1) in
             curSelection tr2 = sel
             /\ curSelectionFor tr2 = curSelectionFor tr1
             /\ selectionSet tr2 = selectionSet tr
             /\ scrolledIntoView tr2 = scrolledIntoView tr
             /\ storedMarksSet tr2 = false).
  { intros tr sel tr1 l Hsel Hl. cbv zeta.
    destruct (addSteps_effect l tr1) as (_ & _ & H3 & H4 & H5 & H6 & _).
    destruct (selection_reread sel_map sel_map tr) as (s & t & Hs & Hcur & _).
    destruct (selection_keeps_updated tr) as (s' & t' & Hs' & Hu & _).
    fold selection in Hs. rewrite Hsel in Hs, Hs'.
    injection Hs as <- <-. injection Hs' as <- <-.
    rewrite H3, H4, H5, H6. unfold selectionSet, scrolledIntoView. rewrite Hu.
    repeat split; try assumption.
    destruct l as [|[step d] rest]; [contradiction|].
    rewrite addSteps_cons. apply addSteps_marks, after_addStep_marks. }
  split; [|split].
  - intros startLen bias tr map Hne Hlast Hspans.
    unfold selectionToInsertionEnd. cbv [bind ret this].
    apply Z.eqb_neq in Hne. now rewrite Hne, Hlast, Hspans.
  - intros slice tr sel tr1 before step d Hsel Hedit Hspans. cbv zeta.
    split; [|apply (Hstate tr sel tr1); [exact Hsel | now destruct before]].
    unfold replaceSelection_edit in Hedit.
    unfold replaceSelection, bind. rewrite Hsel. cbv [this].
    rewrite inherited_outcome, Hedit.
    destruct (completes _); [|reflexivity].
    destruct (descend _ _ _) as [e|last]; [reflexivity|]. cbv [lift ret].
    now rewrite placement_after_unmapped_step.
  - intros node inheritMarks tr sel tr1 before step d Hsel Hedit Hspans. cbv zeta.
    split; [|apply (Hstate tr sel tr1); [exact Hsel | now destruct before]].
    unfold inserted_node in Hedit.
    unfold replaceSelectionWith, bind. rewrite Hsel. cbv [this].
    rewrite inherited_outcome, Hedit.
    destruct (completes _); [|reflexivity].
    now rewrite placement_after_unmapped_step.
Qed.

End ReplaceSelection.

Section PlacementBias.
Context `{C : Collaborators}.
Local Open Scope js_scope.

(** Where the loop of [replaceSelection] ends: without an iteration, at
    its starting point; after one or more, at the last child of the node it
    went into last, which is [lastParent]. *)
Lemma descend_result (n : nat) (node0 parent0 lastNode lastParent : option Node) :
  descend n node0 parent0 = inr (lastNode, lastParent) ->
  match n with
  | O => lastNode = node0 /\ lastParent = parent0
  | S _ => exists parent, lastParent = Some parent /\ lastNode = node_lastChild parent
  end.
Proof.
  revert node0 parent0. induction n as [|n IH]; intros node0 parent0 H.
  - simpl in H. injection H as <- <-. now split.
  - simpl in H. destruct node0 as [node|]; [|discriminate H].
    specialize (IH _ _ H). destruct n as [|n'].
    + destruct IH as [-> ->]. now exists node.
    + exact IH.
Qed.

Lemma placement_bias_backward (lastNode lastParent : option Node) :
  placement_bias lastNode lastParent = -1
  <-> (exists node, lastNode = Some node /\ node_isInline node = true)
      \/ (lastNode = None
          /\ exists parent, lastParent = Some parent /\ node_isTextblock parent = true).
Proof.
  unfold placement_bias. split.
  - destruct lastNode as [node|].
    + destruct (node_isInline node) eqn:E; [|discriminate]. intros _. left. eauto.
    + destruct lastParent as [parent|]; [|discriminate].
      destruct (node_isTextblock parent) eqn:E; [|discriminate].
      intros _. right. eauto.
  - intros [(node & -> & ->) | (-> & parent & -> & ->)]; reflexivity.
Qed.

(** One more level down is the last child of the node reached so far. *)
Lemma last_descendant_step (k : nat) (node0 : option Node) :
  last_descendant (S k) node0
  = match last_descendant k node0 with
    | Some parent => node_lastChild parent
    | None => None
    end.
Proof.
  revert node0. induction k as [|k IH]; intros node0.
  - now destruct node0.
  - destruct node0 as [node|]; [|reflexivity].
    change (last_descendant (S (S k)) (Some node))
      with (last_descendant (S k) (node_lastChild node)).
    rewrite IH. reflexivity.
Qed.

(** C2, as the code has it. When every level [slice.openRight] makes the
    loop go below has a node, [replaceSelection(slice)] reads the
    selection, replaces its range by [slice], and places the selection
    with a bias that is -1 or 1, decided by [lastNode], the node
    [slice.openRight] levels below the last top-level child along last
    children, and [lastParent], the node one level above it. The bias is -1
    (backward) exactly when [lastNode] exists and is inline, or does not
    exist while [lastParent] is a textblock (an open textblock that is
    empty). Without a descent there is no [lastParent], so the bias is -1
    only for an inline last top-level node: a textblock there gives 1. *)
Theorem replaceSelection_bias_rule (slice : Slice) (tr : Transaction) :
  let n := Z.to_nat (slice_openRight slice) in
  let lastNode := last_descendant n (slice_lastChild slice) in
  let lastParent :=
    match n with
    | O => None
    | S k => last_descendant k (slice_lastChild slice)
    end in
  n = O \/ last_descendant (pred n) (slice_lastChild slice) <> None ->
  let bias := placement_bias lastNode lastParent in
  replaceSelection slice tr
  = (let* sel := selection in
     let* t := this in
     inherited (replaceSelection_edit slice sel) ;;
     selectionToInsertionEnd (steps_length t) bias ;;
     ret RetThis) tr
  /\ replaceSelection_bias slice = inr bias
  /\ (bias = -1 \/ bias = 1)
  /\ (bias = -1
      <-> (exists node, lastNode = Some node /\ node_isInline node = true)
          \/ (lastNode = None
              /\ exists parent,
                  lastParent = Some parent /\ node_isTextblock parent = true))
  /\ (slice_openRight slice <= 0 ->
      lastNode = slice_lastChild slice
      /\ lastParent = None
      /\ (bias = -1
          <-> exists node, slice_lastChild slice = Some node /\ node_isInline node = true))
  /\ (0 < slice_openRight slice ->
      exists parent, lastParent = Some parent /\ lastNode = node_lastChild parent).
Proof.
  cbv zeta. intros Hfound.
  assert (Hreach : forall n node0 parent0 a b,
             descend n node0 parent0 = inr (a, b) ->
             a = last_descendant n node0
             /\ b = match n with
                    | O => parent0
                    | S k => last_descendant k node0
                    end).
  { induction n as [|n IH]; intros node0 parent0 a b H.
    - simpl in H. injection H as <- <-. now split.
    - simpl in H. destruct node0 as [node|]; [|discriminate H].
      destruct (IH _ _ _ _ H) as [Hn Hp]. split; [exact Hn|].
      destruct n as [|k]; [exact Hp | exact Hp]. }
  assert (Hfind : forall n node0 parent0,
             n = O \/ last_descendant (pred n) node0 <> None ->
             exists r, descend n node0 parent0 = inr r).
  { induction n as [|n IH]; intros node0 parent0 H.
    - eexists. reflexivity.
    - destruct H as [H|H]; [discriminate H|]. simpl in H.
      destruct node0 as [node|]; [|now destruct n].
      simpl. apply IH. destruct n as [|k]; [now left | right; exact H]. }
  assert (Hsign : forall a b, placement_bias a b = -1 \/ placement_bias a b = 1).
  { intros a b. unfold placement_bias.
    destruct a as [node|]; [destruct (node_isInline node); auto|].
    destruct b as [parent|]; [destruct (node_isTextblock parent); auto|auto]. }
  assert (Hback : forall a b,
             placement_bias a b = -1
             <-> (exists node, a = Some node /\ node_isInline node = true)
                 \/ (a = None
                     /\ exists parent, b = Some parent /\ node_isTextblock parent = true)).
  { intros a b. unfold placement_bias. split.
    - destruct a as [node|].
      + destruct (node_isInline node) eqn:E; [|discriminate]. intros _. left. eauto.
      + destruct b as [parent|]; [|discriminate].
        destruct (node_isTextblock parent) eqn:E; [|discriminate].
        intros _. right. eauto.
    - intros [(node & -> & ->) | (-> & parent & -> & ->)]; reflexivity. }
  destruct (Hfind _ _ None Hfound) as [[lastNode lastParent] Hd].
  destruct (Hreach _ _ _ _ _ Hd) as [Hn Hp].
  split; [|split; [|split; [|split; [|split]]]].
  - rewrite <- Hn, <- Hp.
    unfold replaceSelection, replaceSelection_edit, bind.
    destruct (selection tr) as [sel tr1|e tr1]; [|reflexivity]. cbv [this].
    destruct (inherited _ tr1) as [r tr2|e tr2]; [|reflexivity].
    rewrite Hd. reflexivity.
  - rewrite <- Hn, <- Hp. unfold replaceSelection_bias. now rewrite Hd.
  - apply Hsign.
  - apply Hback.
  - intros Hopen.
    replace (Z.to_nat (slice_openRight slice)) with O by lia.
    split; [reflexivity|]. split; [reflexivity|].
    rewrite Hback. split.
    + intros [H | (_ & parent & Hpar & _)]; [exact H | discriminate Hpar].
    + intros H. now left.
  - intros Hopen.
    destruct (Z.to_nat (slice_openRight slice)) as [|k] eqn:E; [lia|].
    destruct Hfound as [H|H]; [discriminate H|]. simpl in H.
    rewrite last_descendant_step.
    destruct (last_descendant k (slice_lastChild slice)) as [parent|];
      [|contradiction].
    exists parent. now split.
Qed.

End PlacementBias.

(** C2, as the specification has it, fails both ways. For the closed slice
    holding one paragraph there is no descent and the last top-level node
    is a textblock: the specification asks for -1, [replaceSelection] uses
    1. For the slice holding an empty paragraph open on the right, the
    descent ends at no node: the specification asks for 1,
    [replaceSelection] uses -1. *)
Lemma textblock_without_descent_biases_forward :
  replaceSelection_bias (C := flat_lib) paragraph_slice = inr 1
  /\ bias_as_specified (C := flat_lib) paragraph_slice (-1)
  /\ ~ bias_as_specified (C := flat_lib) paragraph_slice 1
  /\ replaceSelection_bias (C := flat_lib) open_empty_slice = inr (-1)
  /\ bias_as_specified (C := flat_lib) open_empty_slice 1
  /\ ~ bias_as_specified (C := flat_lib) open_empty_slice (-1).
Proof.
  split; [reflexivity|]. split; [|split; [|split; [|split]]].
  - intros lastNode lastParent H. injection H as <- <-. reflexivity.
  - intros H. specialize (H (Some paragraph) None eq_refl). discriminate H.
  - reflexivity.
  - intros lastNode lastParent H. injection H as <- <-. reflexivity.
  - intros H. specialize (H None (Some empty_paragraph) eq_refl). discriminate H.
Qed.

(* ===================================================================== *)
(** ** The statements at work on the sample data *)
(* ===================================================================== *)

(** A pending step is mapped on the next read; an up-to-date selection is
    answered as it is. *)
Lemma selection_lazy_remap_witness :
  (exists tr',
      selection (C := flat_lib) flat_tr_pending = Ok (mkFlatSelection 5 7) tr'
      /\ curSelection tr' = mkFlatSelection 5 7
      /\ curSelectionFor tr' = 1
      /\ steps tr' = [[(1, 1, 1, 3)]])
  /\ selection (C := flat_lib) flat_tr = Ok (mkFlatSelection 3 5) flat_tr.
Proof.
  split.
  - destruct (proj1 (selection_lazy_remap (C := flat_lib) flat_tr_pending) eq_refl)
      as ((tr' & Hread & Hcur & Hfor & _ & Hsteps & _) & _).
    exists tr'. split; [exact Hread|]. split; [exact Hcur|].
    split; [exact Hfor | exact Hsteps].
  - apply (proj2 (selection_lazy_remap (C := flat_lib) flat_tr)).
    reflexivity.
Defined.

(** A closed slice holding one paragraph is placed with bias 1; left open
    on the right, it ends at its text and is placed with bias -1. *)
Lemma replaceSelection_bias_rule_witness :
  replaceSelection_bias (C := flat_lib) paragraph_slice = inr 1
  /\ replaceSelection_bias (C := flat_lib) open_paragraph_slice = inr (-1).
Proof.
  split.
  - apply (replaceSelection_bias_rule (C := flat_lib) paragraph_slice flat_tr).
    now left.
  - apply (replaceSelection_bias_rule (C := flat_lib) open_paragraph_slice flat_tr).
    right. discriminate.
Defined.


(** The invariant survives a [replaceSelection]. *)
Lemma curSelectionFor_in_range_witness :
  selection_index_valid (C := flat_lib)
    (final (call (C := flat_lib) (CallReplaceSelection (C := flat_lib) paragraph_slice)
              flat_tr)).
Proof.
  apply (proj1 (proj2 (curSelectionFor_in_range (C := flat_lib)))).
  unfold selection_index_valid, steps_length. simpl. lia.
Defined.

(** Calls that append no step leave the selection of the state to be read. *)
Lemma selection_read_is_stable_witness :
  selection (C := flat_lib)
    (session (C := flat_lib)
       [CallSetTime (C := flat_lib) 5;
        CallSetMeta (C := flat_lib) (JStr "pointer") (JBool true);
        CallAddStoredMark (C := flat_lib) "em";
        CallScrollIntoView (C := flat_lib);
        CallSelection (C := flat_lib)]
       flat_tr)
  = Ok (mkFlatSelection 3 5)
       (session (C := flat_lib)
          [CallSetTime (C := flat_lib) 5;
           CallSetMeta (C := flat_lib) (JStr "pointer") (JBool true);
           CallAddStoredMark (C := flat_lib) "em";
           CallScrollIntoView (C := flat_lib);
           CallSelection (C := flat_lib)]
          flat_tr).
Proof.
  apply (proj1 (proj2 (selection_read_is_stable (C := flat_lib))) flat_state 0).
  - repeat constructor.
  - reflexivity.
Defined.

(** Over a library whose steps report no span, [replaceSelection] ends in
    the state its edit produced. *)
Lemma placement_skipped_without_spans_witness :
  final (replaceSelection (C := inert_lib) paragraph_slice inert_tr)
  = final (addSteps (C := inert_lib) [([(3, 5, 3, 7)], 12)] inert_tr)
  /\ selectionToInsertionEnd (C := flat_lib) 0 (-1) flat_tr_unmapped
     = Ok tt flat_tr_unmapped.
Proof.
  split.
  - apply (proj1 (proj2 (placement_skipped_without_spans (C := inert_lib)))
             paragraph_slice inert_tr (mkFlatSelection 3 5) inert_tr
             [] [(3, 5, 3, 7)] 12);
      reflexivity.
  - apply (proj1 (placement_skipped_without_spans (C := flat_lib))
             0 (-1) flat_tr_unmapped []).
    + discriminate.
    + reflexivity.
    + reflexivity.
Defined.

(* ===================================================================== *)
(** ** Further properties of the class *)
(* ===================================================================== *)

(** *** What a call leaves alone *)

Section KeptByCalls.
Context `{C : Collaborators}.
Variable P : Transaction -> Prop.

Hypothesis K_selection : preserves P selection.
Hypothesis K_setSelection : forall s, preserves P (setSelection s).
Hypothesis K_storedMarks : forall m tr, P tr -> P (set_storedMarks m tr).
Hypothesis K_marksFlag :
  forall tr, P tr -> P (set_updated (js_or (updated tr) UPDATED_MARKS) tr).
Hypothesis K_scrollFlag :
  forall tr, P tr -> P (set_updated (js_or (updated tr) UPDATED_SCROLL) tr).

Lemma kept_by_placement (n b : Z) : preserves P (selectionToInsertionEnd n b).
Proof. unfold selectionToInsertionEnd. repeat preserve_step. Qed.

Lemma kept_by_marks_or_current : preserves P marks_or_current.
Proof. unfold marks_or_current. repeat preserve_step. Qed.

Lemma kept_by_addSteps (l : list (Step * Doc)) :
  (forall step d, preserves P (addStep step d)) -> preserves P (addSteps l).
Proof.
  intros Hadd. induction l as [|[step d] rest IH].
  - apply preserves_ret.
  - simpl. apply preserves_bind; [apply Hadd | intros _; exact IH].
Qed.

Lemma kept_by_inherited (op : Doc -> Edit Step Doc) :
  (forall step d, preserves P (addStep step d)) -> preserves P (inherited op).
Proof.
  intros Hadd. pose proof (fun l => kept_by_addSteps l Hadd) as HaddSteps.
  unfold inherited. repeat preserve_step.
Qed.

(** A property kept by the selection getter, by [setSelection] and by the
    writes to [storedMarks] and the flags is kept by every call that does
    not write elsewhere: one that appends no step unless [addStep] keeps
    it, [setTime] unless a new time keeps it, [setMeta] unless a new
    metadata object keeps it. *)
Lemma kept_by_call (c : Call) :
  (is_edit c = false \/ forall step d, preserves P (addStep step d)) ->
  (is_setTime c = false \/ forall t tr, P tr -> P (set_time t tr)) ->
  (is_setMeta c = false \/ forall m tr, P tr -> P (set_meta m tr)) ->
  preserves P (call c).
Proof.
  pose proof kept_by_placement as Hplace.
  pose proof kept_by_marks_or_current as Hmarks.
  intros Hedit Htime Hmeta.
  destruct c;
    try (destruct Hedit as [Hedit|Hadd]; [discriminate Hedit|];
         pose proof (fun op => kept_by_inherited op Hadd) as Hinh);
    try (destruct Htime as [Htime|Htime]; [discriminate Htime|]);
    try (destruct Hmeta as [Hmeta|Hmeta]; [discriminate Hmeta|]);
    cbv [call setStoredMarks setTime replaceSelection replaceSelectionWith
         deleteSelection insertText setMeta getMeta scrollIntoView
         addStoredMark removeStoredMark];
    repeat preserve_step;
    try (apply preserves_assign; intros ? ?; auto).
Qed.

Lemma kept_by_session (cs : list Call) (tr : Transaction) :
  (forall c, preserves P (call c)) -> P tr -> P (session cs tr).
Proof.
  intros Hc. revert tr. induction cs as [|c rest IH]; intros tr H.
  - exact H.
  - simpl. apply IH, Hc, H.
Qed.

End KeptByCalls.

Section MoreMetadata.
Context `{C : Collaborators}.

(** Reading the selection writes the cache and nothing else. *)
Lemma selection_writes_cache_only (tr : Transaction) :
  exists s tr1,
    selection tr = Ok s tr1
    /\ doc tr1 = doc tr /\ steps tr1 = steps tr /\ docs tr1 = docs tr
    /\ maps tr1 = maps tr /\ time tr1 = time tr
    /\ storedMarks tr1 = storedMarks tr /\ updated tr1 = updated tr
    /\ meta tr1 = meta tr.
Proof.
  unfold selection. rewrite selection_final.
  destruct (curSelectionFor tr <? steps_length tr); eexists _, _; repeat split.
Qed.

Lemma getMeta_outcome (key : JsVal) (tr : Transaction) :
  getMeta key tr =
  match meta_key key with
  | inl e => Throw e tr
  | inr name => Ok (default JUndefined (meta tr !! name)) tr
  end.
Proof. unfold getMeta. js_run. now destruct (meta_key key). Qed.

Lemma meta_kept_by_unit_calls (m0 : gmap string JsVal) :
  preserves (fun tr => meta tr = m0) selection
  /\ (forall s, preserves (fun tr => meta tr = m0) (setSelection s))
  /\ (forall step d, preserves (fun tr => meta tr = m0) (addStep step d)).
Proof.
  split; [|split].
  - intros tr H.
    destruct (selection_writes_cache_only tr) as (s & tr1 & -> & Hrest).
    simpl. destruct Hrest as (_ & _ & _ & _ & _ & _ & _ & ->). exact H.
  - intros s tr H. exact H.
  - intros step d tr H. exact H.
Qed.

Lemma meta_kept (c : Call) (tr : Transaction) :
  stores_metadata c = false -> meta (final (call c tr)) = meta tr.
Proof.
  intros Hc.
  destruct (meta_kept_by_unit_calls (meta tr)) as (Hsel & Hset & Hadd).
  destruct (is_setMeta c) eqn:E.
  - destruct c; try discriminate E. simpl in Hc.
    unfold call, bind. rewrite setMeta_outcome.
    destruct (meta_key key); [reflexivity | discriminate Hc].
  - apply (kept_by_call (fun t => meta t = meta tr)); auto.
Qed.

(** X1. After a [setMeta(key, value)] that returns, [getMeta(key')] answers
    [value] when [key'] names the same property as [key] (a string and an
    object whose [key] is that string do), and otherwise what it answered
    before; the read leaves the transaction as the write left it. *)
Theorem getMeta_after_setMeta
    (key key' value : JsVal) (name name' : string) (tr : Transaction) :
  meta_key key = inr name ->
  meta_key key' = inr name' ->
  exists tr',
    setMeta key value tr = Ok RetThis tr'
    /\ getMeta key' tr'
       = Ok (if String.eqb name name' then value
             else default JUndefined (meta tr !! name')) tr'
    /\ (name <> name' ->
        exists v, getMeta key' tr = Ok v tr /\ getMeta key' tr' = Ok v tr').
Proof.
  intros Hk Hk'. unfold setMeta, getMeta. cbv [bind ret this assign lift throw].
  rewrite Hk. eexists. split; [reflexivity|].
  rewrite Hk'. cbn [meta set_meta].
  destruct (String.eqb_spec name name') as [->|Hne].
  - rewrite lookup_insert_eq. split; [reflexivity|]. intros H. contradiction.
  - rewrite lookup_insert_ne by exact Hne. split; [reflexivity|].
    intros _. eexists. split; reflexivity.
Qed.

(** X2. [getMeta] never changes the transaction, whether it returns or
    throws. It throws exactly for the keys no property name can be made
    of: [null], [undefined], and an object whose [key] is an object that
    cannot be converted. For a property that was never stored, as for
    every other key on a new transaction, it answers [undefined]. *)
Theorem getMeta_reads_without_writing (key : JsVal) (tr : Transaction) :
  final (getMeta key tr) = tr
  /\ ((exists e, getMeta key tr = Throw e tr) <-> key_without_name key = true)
  /\ (forall name, meta_key key = inr name -> meta tr !! name = None ->
                   getMeta key tr = Ok JUndefined tr)
  /\ (forall state now,
         key_without_name key = false ->
         getMeta key (constructor state now) = Ok JUndefined (constructor state now)).
Proof.
  split; [|split; [|split]].
  - unfold getMeta. cbv [bind ret this lift throw]. now destruct (meta_key key).
  - unfold getMeta, meta_key, key_without_name. cbv [bind ret this lift throw].
    key_cases key;
      (split; [intros [e He]; first [reflexivity | discriminate He]
              | intros H; first [discriminate H | eexists; reflexivity]]).
  - intros name Hk Hnone. unfold getMeta. cbv [bind ret this lift throw].
    now rewrite Hk, Hnone.
  - intros state now. unfold getMeta, meta_key, key_without_name.
    cbv [bind ret this lift throw].
    key_cases key; intros H; try discriminate H;
      rewrite ?lookup_empty; reflexivity.
Qed.

Lemma isGeneric_empty (tr : Transaction) :
  isGeneric tr = true <-> meta tr = ∅.
Proof.
  unfold isGeneric. destruct (map_to_list (meta tr)) as [|x l] eqn:E.
  - split; [|reflexivity]. intros _. now apply map_to_list_empty_iff.
  - split; [discriminate|]. intros H. rewrite H, map_to_list_empty in E.
    discriminate E.
Qed.

(** X3. [isGeneric] is true exactly while the metadata object is empty. A
    new transaction is generic, and after any sequence of calls it is
    generic exactly when none of them was a [setMeta] that stores, that is
    a [setMeta] with a key a property name can be made of (any key but
    [null], [undefined] and an object whose [key] is an object that cannot
    be converted): no other call, and no [setMeta] that throws, stores
    anything, and nothing removes a stored property. *)
Theorem isGeneric_until_setMeta :
  (forall tr, isGeneric tr = true <-> meta tr = ∅)
  /\ (forall state now, isGeneric (constructor state now) = true)
  /\ (forall key value,
         stores_metadata (CallSetMeta key value) = negb (key_without_name key))
  /\ (forall cs tr,
         isGeneric (session cs tr) = isGeneric tr && negb (existsb stores_metadata cs))
  /\ (forall state now cs,
         isGeneric (session cs (constructor state now))
         = negb (existsb stores_metadata cs)).
Proof.
  assert (Hcall : forall c tr,
             isGeneric (final (call c tr)) = isGeneric tr && negb (stores_metadata c)).
  { intros c tr. destruct (stores_metadata c) eqn:Hc.
    - rewrite andb_false_r.
      destruct c; try discriminate Hc. simpl in Hc.
      unfold call, setMeta. cbv [bind ret assign lift throw].
      destruct (meta_key key) as [e|name]; [discriminate Hc|]. simpl.
      destruct (isGeneric _) eqn:E; [|reflexivity].
      apply isGeneric_empty in E. simpl in E.
      now apply insert_non_empty in E.
    - rewrite andb_true_r. unfold isGeneric. now rewrite meta_kept. }
  assert (Hs : forall cs tr,
             isGeneric (session cs tr)
             = isGeneric tr && negb (existsb stores_metadata cs)).
  { induction cs as [|c rest IH]; intros tr; simpl.
    - now rewrite andb_true_r.
    - rewrite IH, Hcall, negb_orb. now rewrite andb_assoc. }
  split; [exact isGeneric_empty|]. split; [reflexivity|].
  split; [|split; [exact Hs|]].
  - intros key value. unfold stores_metadata, meta_key, key_without_name.
    key_cases key; reflexivity.
  - intros state now cs. now rewrite Hs.
Qed.

Lemma time_kept_by_unit_calls (t0 : Z) :
  preserves (fun tr => time tr = t0) selection
  /\ (forall s, preserves (fun tr => time tr = t0) (setSelection s))
  /\ (forall step d, preserves (fun tr => time tr = t0) (addStep step d)).
Proof.
  split; [|split].
  - intros tr H.
    destruct (selection_writes_cache_only tr) as (s & tr1 & -> & Hrest).
    simpl. destruct Hrest as (_ & _ & _ & _ & -> & _). exact H.
  - intros s tr H. exact H.
  - intros step d tr H. exact H.
Qed.

(** X4. Metadata and the timestamp are written by their own setters only:
    every call other than [setMeta] leaves the metadata object as it was,
    a [setMeta] that throws does too, and every call other than [setTime]
    leaves [time] as it was. Appending steps, in particular, invalidates
    neither. *)
Theorem metadata_and_time_have_one_writer (c : Call) (tr : Transaction) :
  (stores_metadata c = false -> meta (final (call c tr)) = meta tr)
  /\ (is_setTime c = false -> time (final (call c tr)) = time tr)
  /\ (forall t, time (final (setTime t tr)) = t).
Proof.
  split; [apply meta_kept|]. split; [|reflexivity].
  intros Hc.
  destruct (time_kept_by_unit_calls (time tr)) as (Hsel & Hset & Hadd).
  apply (kept_by_call (fun t => time t = time tr)); auto.
Qed.

End MoreMetadata.

Section MoreFlags.
Context `{C : Collaborators}.

(** [u | UPDATED_MARKS] sets bit 1 and keeps bits 0 and 2. *)
Lemma set_marks_bits (u : Z) :
  let u' := js_or u UPDATED_MARKS in
  Z.testbit u' 0 = Z.testbit u 0 /\ Z.testbit u' 1 = true /\ Z.testbit u' 2 = Z.testbit u 2.
Proof.
  cbv zeta. rewrite !js_or_testbit by lia.
  change (Z.testbit UPDATED_MARKS 0) with false.
  change (Z.testbit UPDATED_MARKS 1) with true.
  change (Z.testbit UPDATED_MARKS 2) with false.
  rewrite orb_true_r, !orb_false_r. auto.
Qed.

(** [u | UPDATED_SCROLL] sets bit 2 and keeps bits 0 and 1. *)
Lemma set_scroll_bits (u : Z) :
  let u' := js_or u UPDATED_SCROLL in
  Z.testbit u' 0 = Z.testbit u 0 /\ Z.testbit u' 1 = Z.testbit u 1 /\ Z.testbit u' 2 = true.
Proof.
  cbv zeta. rewrite !js_or_testbit by lia.
  change (Z.testbit UPDATED_SCROLL 0) with false.
  change (Z.testbit UPDATED_SCROLL 1) with false.
  change (Z.testbit UPDATED_SCROLL 2) with true.
  rewrite orb_true_r, !orb_false_r. auto.
Qed.

(** No write to the bitfield clears bit [i] when [i] is 0 or 2. *)
Lemma sticky_bit_kept (i : Z) (c : Call) :
  i = 0 \/ i = 2 ->
  preserves (fun tr => Z.testbit (updated tr) i = true) (call c).
Proof.
  intros Hi.
  apply (kept_by_call (fun tr => Z.testbit (updated tr) i = true)).
  - intros tr H.
    destruct (selection_writes_cache_only tr) as (s & tr1 & -> & Hrest).
    simpl. destruct Hrest as (_ & _ & _ & _ & _ & _ & -> & _). exact H.
  - intros s tr H. rewrite setSelection_final. simpl.
    destruct (clear_marks_bits (js_or (updated tr) UPDATED_SEL)) as (H0 & _ & H2).
    destruct (set_sel_bits (updated tr)) as (S0 & _ & S2).
    destruct Hi as [-> | ->]; congruence.
  - intros m tr H. exact H.
  - intros tr H. simpl.
    destruct (set_marks_bits (updated tr)) as (H0 & _ & H2).
    destruct Hi as [-> | ->]; congruence.
  - intros tr H. simpl.
    destruct (set_scroll_bits (updated tr)) as (H0 & _ & H2).
    destruct Hi as [-> | ->]; congruence.
  - right. intros step d tr H. rewrite addStep_final. simpl.
    destruct (clear_marks_bits (updated tr)) as (H0 & _ & H2).
    destruct Hi as [-> | ->]; congruence.
  - right. intros t tr H. exact H.
  - right. intros m tr H. exact H.
Qed.

(** X5. [scrollIntoView()] returns the transaction with [scrolledIntoView]
    true and the other two flags as they were. Once [selectionSet] or
    [scrolledIntoView] is true, no call makes it false again, whether the
    call returns or throws: only the stored-marks flag is ever cleared. *)
Theorem selection_and_scroll_flags_stay_set (tr : Transaction) :
  (exists tr',
      scrollIntoView tr = Ok RetThis tr'
      /\ scrolledIntoView tr' = true
      /\ selectionSet tr' = selectionSet tr
      /\ storedMarksSet tr' = storedMarksSet tr)
  /\ (forall c,
         selectionSet tr = true -> selectionSet (final (call c tr)) = true)
  /\ (forall c,
         scrolledIntoView tr = true -> scrolledIntoView (final (call c tr)) = true)
  /\ (forall cs,
         (selectionSet tr = true -> selectionSet (session cs tr) = true)
         /\ (scrolledIntoView tr = true -> scrolledIntoView (session cs tr) = true)).
Proof.
  split; [|split; [|split]].
  - eexists. split; [reflexivity|].
    rewrite !selectionSet_bit, !storedMarksSet_bit, !scrolledIntoView_bit.
    cbn [updated set_updated].
    destruct (set_scroll_bits (updated tr)) as (H0 & H1 & H2). auto.
  - intros c. rewrite !selectionSet_bit. apply (sticky_bit_kept 0 c). now left.
  - intros c. rewrite !scrolledIntoView_bit. apply (sticky_bit_kept 2 c). now right.
  - intros cs. rewrite !selectionSet_bit, !scrolledIntoView_bit. split.
    + apply (kept_by_session (fun t => Z.testbit (updated t) 0 = true)).
      intros c. apply sticky_bit_kept. now left.
    + apply (kept_by_session (fun t => Z.testbit (updated t) 2 = true)).
      intros c. apply sticky_bit_kept. now right.
Qed.

(** The four writes to the bitfield keep it within three bits. *)
Lemma flag_writes_in_range (u : Z) :
  0 <= u < 8 ->
  0 <= js_and (js_or u UPDATED_SEL) (js_not UPDATED_MARKS) < 8
  /\ 0 <= js_or u UPDATED_MARKS < 8
  /\ 0 <= js_and u (js_not UPDATED_MARKS) < 8
  /\ 0 <= js_or u UPDATED_SCROLL < 8.
Proof.
  intros Hu.
  assert (Hcases : u = 0 \/ u = 1 \/ u = 2 \/ u = 3 \/ u = 4 \/ u = 5 \/ u = 6 \/ u = 7)
    by lia.
  repeat (destruct Hcases as [-> | Hcases]); try subst u; vm_compute; intuition discriminate.
Qed.

Lemma updated_in_range_kept (c : Call) :
  preserves (fun tr => 0 <= updated tr < 8) (call c).
Proof.
  apply (kept_by_call (fun tr => 0 <= updated tr < 8)).
  - intros tr H.
    destruct (selection_writes_cache_only tr) as (s & tr1 & -> & Hrest).
    simpl. destruct Hrest as (_ & _ & _ & _ & _ & _ & -> & _). exact H.
  - intros s tr H. rewrite setSelection_final. simpl.
    now destruct (flag_writes_in_range _ H) as (H1 & _).
  - intros m tr H. exact H.
  - intros tr H. simpl. now destruct (flag_writes_in_range _ H) as (_ & H2 & _).
  - intros tr H. simpl. now destruct (flag_writes_in_range _ H) as (_ & _ & _ & H4).
  - right. intros step d tr H. rewrite addStep_final. simpl.
    now destruct (flag_writes_in_range _ H) as (_ & _ & H3 & _).
  - right. intros t tr H. exact H.
  - right. intros m tr H. exact H.
Qed.

(** X6. On a transaction built by the constructor and any sequence of
    calls, [updated] stays between 0 and 7 and is exactly the sum of the
    flags the three getters report (1 for [selectionSet], 2 for
    [storedMarksSet], 4 for [scrolledIntoView]): the getters lose nothing
    of the bitfield, and the 32-bit wrap-around of the bit operators never
    comes into play. *)
Theorem updated_is_the_sum_of_its_flags
    (state : EditorState) (now : Z) (cs : list Call) :
  let tr := session cs (constructor state now) in
  0 <= updated tr < 8
  /\ updated tr
     = (if selectionSet tr then 1 else 0)
       + (if storedMarksSet tr then 2 else 0)
       + (if scrolledIntoView tr then 4 else 0).
Proof.
  cbv zeta.
  assert (Hr : 0 <= updated (session cs (constructor state now)) < 8).
  { apply (kept_by_session (fun t => 0 <= updated t < 8)).
    - exact updated_in_range_kept.
    - simpl. lia. }
  split; [exact Hr|].
  unfold selectionSet, storedMarksSet, scrolledIntoView.
  set (u := updated (session cs (constructor state now))) in *.
  assert (Hcases : u = 0 \/ u = 1 \/ u = 2 \/ u = 3 \/ u = 4 \/ u = 5 \/ u = 6 \/ u = 7)
    by lia.
  clearbody u.
  repeat (destruct Hcases as [-> | Hcases]); try subst u; reflexivity.
Qed.

(** X7. [setStoredMarks(marks)] returns the transaction with [storedMarks]
    equal to [marks] and [storedMarksSet] true, also when [marks] is
    [null]; the cached selection, its step count, the step log, and the
    flags [selectionSet] and [scrolledIntoView] are as they were. *)
Theorem setStoredMarks_effect (marks : option (list Mark)) (tr : Transaction) :
  exists tr',
    setStoredMarks marks tr = Ok RetThis tr'
    /\ storedMarks tr' = marks
    /\ storedMarksSet tr' = true
    /\ selectionSet tr' = selectionSet tr
    /\ scrolledIntoView tr' = scrolledIntoView tr
    /\ curSelection tr' = curSelection tr
    /\ curSelectionFor tr' = curSelectionFor tr
    /\ steps tr' = steps tr
    /\ doc tr' = doc tr.
Proof.
  eexists. split; [reflexivity|].
  rewrite !selectionSet_bit, !storedMarksSet_bit, !scrolledIntoView_bit.
  cbn [updated set_updated set_storedMarks].
  destruct (set_marks_bits (updated tr)) as (H0 & H1 & H2).
  repeat split; auto.
Qed.

End MoreFlags.

Section StepLog.
Context `{C : Collaborators}.

Lemma log_consistent_kept (c : Call) : preserves log_consistent (call c).
Proof.
  apply (kept_by_call log_consistent).
  - intros tr H.
    destruct (selection_writes_cache_only tr) as (s & tr1 & -> & Hrest).
    simpl. destruct Hrest as (_ & Hs & Hd & Hm & _).
    unfold log_consistent in *. now rewrite Hs, Hd, Hm.
  - intros s tr H. exact H.
  - intros m tr H. exact H.
  - intros tr H. exact H.
  - intros tr H. exact H.
  - right. intros step d tr [Hm Hd]. rewrite addStep_final. simpl.
    unfold log_consistent, after_addStep. simpl. split.
    + now rewrite fmap_app, Hm.
    + rewrite !length_app, Hd. reflexivity.
  - right. intros t tr H. exact H.
  - right. intros m tr H. exact H.
Qed.

(** X8. The step log stays in step: on a new transaction, and after every
    call (returning or throwing) on a transaction where it held,
    [mapping.maps] is the list of the maps of [steps], in order, and [docs]
    holds one document per step. So [steps], [docs] and [mapping.maps] have
    the same length after any sequence of calls. *)
Theorem step_log_stays_consistent :
  (forall state now, log_consistent (constructor state now))
  /\ (forall c tr, log_consistent tr -> log_consistent (final (call c tr)))
  /\ (forall state now cs,
         let tr := session cs (constructor state now) in
         log_consistent tr
         /\ maps_in_step tr
         /\ length (docs tr) = length (steps tr)).
Proof.
  assert (H0 : forall state now, log_consistent (constructor state now)).
  { intros state now. split; reflexivity. }
  split; [exact H0|]. split; [intros c tr; apply log_consistent_kept|].
  intros state now cs. cbv zeta.
  assert (H : log_consistent (session cs (constructor state now))).
  { apply (kept_by_session log_consistent); [exact log_consistent_kept | apply H0]. }
  split; [exact H|]. destruct H as [Hm Hd]. split; [|exact Hd].
  unfold maps_in_step. now rewrite Hm, length_fmap.
Qed.

Lemma extends_log_kept (tr0 : Transaction) (c : Call) :
  preserves (extends_log tr0) (call c).
Proof.
  apply (kept_by_call (extends_log tr0)).
  - intros tr H.
    destruct (selection_writes_cache_only tr) as (s & tr1 & -> & Hrest).
    simpl. destruct Hrest as (_ & Hs & _).
    unfold extends_log in *. now rewrite Hs.
  - intros s tr H. exact H.
  - intros m tr H. exact H.
  - intros tr H. exact H.
  - intros tr H. exact H.
  - right. intros step d tr [l Hl]. rewrite addStep_final. simpl.
    exists (l ++ [step]). unfold after_addStep. simpl.
    now rewrite Hl, app_assoc.
  - right. intros t tr H. exact H.
  - right. intros m tr H. exact H.
Qed.

Lemma log_untouched_kept (tr0 : Transaction) (c : Call) :
  is_edit c = false ->
  preserves (fun tr => doc tr = doc tr0 /\ steps tr = steps tr0
                       /\ docs tr = docs tr0 /\ maps tr = maps tr0) (call c).
Proof.
  intros Hc.
  apply (kept_by_call (fun tr => doc tr = doc tr0 /\ steps tr = steps tr0
                                 /\ docs tr = docs tr0 /\ maps tr = maps tr0)).
  - intros tr H.
    destruct (selection_writes_cache_only tr) as (s & tr1 & -> & Hrest).
    simpl. destruct Hrest as (Hdoc & Hs & Hd & Hm & _).
    now rewrite Hdoc, Hs, Hd, Hm.
  - intros s tr H. exact H.
  - intros m tr H. exact H.
  - intros tr H. exact H.
  - intros tr H. exact H.
  - now left.
  - right. intros t tr H. exact H.
  - right. intros m tr H. exact H.
Qed.

(** X9. Steps are only ever appended: after any call, returning or
    throwing, the steps of the transaction are the earlier ones followed by
    those the call added. The calls that are not edits (the getters,
    [setSelection], [setStoredMarks], [setTime], [setMeta], [getMeta],
    [scrollIntoView], [addStoredMark], [removeStoredMark]) leave the
    document, [steps], [docs] and [mapping.maps] exactly as they were. *)
Theorem steps_are_only_appended (c : Call) (tr : Transaction) :
  extends_log tr (final (call c tr))
  /\ (forall cs, extends_log tr (session cs tr))
  /\ (is_edit c = false ->
      doc (final (call c tr)) = doc tr
      /\ steps (final (call c tr)) = steps tr
      /\ docs (final (call c tr)) = docs tr
      /\ maps (final (call c tr)) = maps tr).
Proof.
  assert (H0 : extends_log tr tr) by (exists []; now rewrite app_nil_r).
  split; [apply extends_log_kept, H0|]. split.
  - intros cs. apply (kept_by_session (extends_log tr)); [|exact H0].
    apply extends_log_kept.
  - intros Hc. apply (log_untouched_kept tr c Hc). repeat split.
Qed.

End StepLog.

Section Edits.
Context `{C : Collaborators}.

Lemma addSteps_doc (l : list (Step * Doc)) (tr : Transaction) :
  doc (final (addSteps l tr))
  = match last l with
    | Some sd => sd.2
    | None => doc tr
    end.
Proof.
  revert tr. induction l as [|[step d] rest IH]; intros tr; [reflexivity|].
  rewrite addSteps_cons, IH.
  destruct rest as [|sd rest']; [reflexivity|].
  rewrite last_cons_cons. destruct (last (sd :: rest')) eqn:E; [reflexivity|].
  now apply last_None in E.
Qed.

(** After steps ending in one whose map reports spans, the placement sets
    the selection near the output end of the last span, in the document
    that step produced. *)
Lemma placement_after_mapped_step
    (before : list (Step * Doc)) (step : Step) (d : Doc) (sp : Span)
    (bias : Z) (tr : Transaction) :
  last (stepMap_forEach (step_getMap step)) = Some sp ->
  selectionToInsertionEnd (steps_length tr) bias
    (final (addSteps (before ++ [(step, d)]) tr))
  = Ok tt (after_setSelection (sel_near (doc_resolve d (span_newTo sp)) bias)
             (final (addSteps (before ++ [(step, d)]) tr))).
Proof.
  intros Hsp. rewrite placement_outcome.
  destruct (addSteps_effect (before ++ [(step, d)]) tr) as (H1 & H2 & _).
  unfold steps_length at 1. rewrite H1, H2, addSteps_doc, last_snoc.
  rewrite !fmap_app, length_app, length_app. simpl.
  replace (Z.of_nat (length (steps tr) + (length before.*1 + 1)) =? steps_length tr)
    with false by (symmetry; apply Z.eqb_neq; unfold steps_length; lia).
  unfold last_map. rewrite app_assoc, last_snoc, Hsp. reflexivity.
Qed.

(** X10. When the edit of [replaceSelectionWith(node, inheritMarks)]
    completes and its last step's map reports spans, the call returns the
    transaction with the selection set, as by [setSelection], to
    [Selection.near] of the output end of the last span, resolved in the
    new document, with bias -1 if the inserted (marked) node is inline and
    1 otherwise. Afterwards [selectionSet] is true, [storedMarks] is
    [null], [storedMarksSet] is false, and the selection is valid for all
    steps. *)
Theorem replaceSelectionWith_places_selection
    (node : Node) (inheritMarks : JsVal) (tr tr1 : Transaction) (sel : Selection)
    (before : list (Step * Doc)) (step : Step) (d : Doc) (sp : Span) :
  selection tr = Ok sel tr1 ->
  completes (replaceRangeWith (doc tr1) (sel_from sel) (sel_to sel)
               (inserted_node node inheritMarks sel tr1)) = true ->
  appended (replaceRangeWith (doc tr1) (sel_from sel) (sel_to sel)
              (inserted_node node inheritMarks sel tr1))
  = before ++ [(step, d)] ->
  last (stepMap_forEach (step_getMap step)) = Some sp ->
  let bias := if node_isInline (inserted_node node inheritMarks sel tr1)
              then -1 else 1 in
  let placed := sel_near (doc_resolve d (span_newTo sp)) bias in
  exists tr',
    replaceSelectionWith node inheritMarks tr = Ok RetThis tr'
    /\ tr' = after_setSelection placed (final (addSteps (before ++ [(step, d)]) tr1))
    /\ curSelection tr' = placed
    /\ curSelectionFor tr' = steps_length tr'
    /\ doc tr' = d
    /\ selectionSet tr' = true
    /\ storedMarksSet tr' = false
    /\ storedMarks tr' = None.
Proof.
  intros Hsel Hdone Hedit Hsp. cbv zeta. eexists. split.
  - unfold inserted_node in *.
    unfold replaceSelectionWith, bind. rewrite Hsel. cbv [this].
    rewrite inherited_outcome, Hedit, Hdone.
    rewrite (placement_after_mapped_step _ _ _ sp) by exact Hsp.
    reflexivity.
  - split; [reflexivity|]. split; [reflexivity|]. split; [reflexivity|].
    split.
    + cbn [after_setSelection doc set_storedMarks set_updated set_curSelectionFor
           set_curSelection].
      now rewrite addSteps_doc, last_snoc.
    + destruct (after_setSelection_flags
                  (sel_near (doc_resolve d (span_newTo sp))
                     (if node_isInline (inserted_node node inheritMarks sel tr1)
                      then -1 else 1))
                  (final (addSteps (before ++ [(step, d)]) tr1))) as (F0 & F1 & _).
      repeat split; assumption.
Qed.

(** X11. When the edit of [replaceSelection(slice)] completes, its last
    step's map reports spans, and the descent along [slice.openRight] finds
    its nodes, the call returns the transaction with the selection set to
    [Selection.near] of the output end of the last span, resolved in the
    new document, with the bias the descent gives; afterwards
    [selectionSet] is true and the stored marks are cleared. *)
Theorem replaceSelection_places_selection
    (slice : Slice) (tr tr1 : Transaction) (sel : Selection)
    (before : list (Step * Doc)) (step : Step) (d : Doc) (sp : Span) (bias : Z) :
  selection tr = Ok sel tr1 ->
  completes (replaceSelection_edit slice sel (doc tr1)) = true ->
  appended (replaceSelection_edit slice sel (doc tr1)) = before ++ [(step, d)] ->
  last (stepMap_forEach (step_getMap step)) = Some sp ->
  replaceSelection_bias slice = inr bias ->
  let placed := sel_near (doc_resolve d (span_newTo sp)) bias in
  exists tr',
    replaceSelection slice tr = Ok RetThis tr'
    /\ tr' = after_setSelection placed (final (addSteps (before ++ [(step, d)]) tr1))
    /\ curSelection tr' = placed
    /\ curSelectionFor tr' = steps_length tr'
    /\ doc tr' = d
    /\ selectionSet tr' = true
    /\ storedMarksSet tr' = false
    /\ storedMarks tr' = None.
Proof.
  intros Hsel Hdone Hedit Hsp Hbias. cbv zeta.
  exists (after_setSelection (sel_near (doc_resolve d (span_newTo sp)) bias)
            (final (addSteps (before ++ [(step, d)]) tr1))).
  split.
  - unfold replaceSelection_edit, replaceSelection_bias in *.
    unfold replaceSelection, bind. rewrite Hsel. cbv [this].
    rewrite inherited_outcome, Hedit, Hdone.
    destruct (descend _ _ _) as [e|[lastNode lastParent]]; [discriminate Hbias|].
    injection Hbias as <-. cbv [lift ret fst snd].
    rewrite (placement_after_mapped_step _ _ _ sp) by exact Hsp.
    reflexivity.
  - split; [reflexivity|]. split; [reflexivity|]. split; [reflexivity|].
    split.
    + cbn [after_setSelection doc set_storedMarks set_updated set_curSelectionFor
           set_curSelection].
      now rewrite addSteps_doc, last_snoc.
    + destruct (after_setSelection_flags
                  (sel_near (doc_resolve d (span_newTo sp)) bias)
                  (final (addSteps (before ++ [(step, d)]) tr1))) as (F0 & F1 & _).
      repeat split; assumption.
Qed.

(** X12. An edit that appends no step places no selection: when the range
    replacement behind [replaceSelection], [replaceSelectionWith] or
    [deleteSelection] adds no step, the call ends, returning or throwing,
    in the state the read of the selection left, so [selectionSet], the
    stored marks and their flag are as before the call. *)
Theorem edits_without_steps_change_nothing
    (tr tr1 : Transaction) (sel : Selection) :
  selection tr = Ok sel tr1 ->
  (forall slice,
      appended (replaceSelection_edit slice sel (doc tr1)) = [] ->
      final (replaceSelection slice tr) = tr1)
  /\ (forall node inheritMarks,
         appended (replaceRangeWith (doc tr1) (sel_from sel) (sel_to sel)
                     (inserted_node node inheritMarks sel tr1)) = [] ->
         final (replaceSelectionWith node inheritMarks tr) = tr1)
  /\ (appended (deleteRange (doc tr1) (sel_from sel) (sel_to sel)) = [] ->
      final (deleteSelection tr) = tr1)
  /\ updated tr1 = updated tr
  /\ storedMarks tr1 = storedMarks tr.
Proof.
  intros Hsel.
  assert (Hplace : forall bias, selectionToInsertionEnd (steps_length tr1) bias tr1
                                = Ok tt tr1).
  { intros bias. rewrite placement_outcome. now rewrite Z.eqb_refl. }
  split; [|split; [|split]].
  - intros slice Hedit. unfold replaceSelection_edit in Hedit.
    unfold replaceSelection, bind. rewrite Hsel. cbv [this].
    rewrite inherited_outcome, Hedit. simpl addSteps. cbv [ret final].
    destruct (completes _); [|reflexivity].
    destruct (descend _ _ _) as [e|last]; [reflexivity|]. cbv [lift ret].
    now rewrite Hplace.
  - intros node inheritMarks Hedit. unfold inserted_node in Hedit.
    unfold replaceSelectionWith, bind. rewrite Hsel. cbv [this].
    rewrite inherited_outcome, Hedit. simpl addSteps. cbv [ret final].
    destruct (completes _); [|reflexivity].
    now rewrite Hplace.
  - intros Hedit. unfold deleteSelection, bind. rewrite Hsel.
    rewrite inherited_outcome, Hedit. simpl addSteps. cbv [ret final].
    now destruct (completes _).
  - destruct (selection_writes_cache_only tr) as (s & t & Hs & Hrest).
    rewrite Hsel in Hs. injection Hs as <- <-.
    destruct Hrest as (_ & _ & _ & _ & _ & Hm & Hu & _). auto.
Qed.

End Edits.

Section MoreEdits.
Context `{C : Collaborators}.

Lemma last_descendant_none (k : nat) : last_descendant k None = None.
Proof. now destruct k. Qed.

(** The loop throws exactly when it has to go below a node that is not
    there, and then with a [TypeError]. *)
Lemma descend_fails_iff (n : nat) (node0 parent0 : option Node) :
  (exists e, descend n node0 parent0 = inl e)
  <-> n <> O /\ last_descendant (pred n) node0 = None.
Proof.
  revert node0 parent0. induction n as [|n IH]; intros node0 parent0.
  - simpl. split; [intros [e He]; discriminate He | intros [H _]; contradiction].
  - simpl descend. simpl pred. destruct node0 as [node|].
    + rewrite IH. destruct n as [|k]; simpl.
      * split; [intros [H _]; contradiction | intros [_ H]; discriminate H].
      * split; intros [_ H]; (split; [discriminate | exact H]).
    + rewrite last_descendant_none. split; [now split | intros _; eexists; reflexivity].
Qed.

Lemma descend_error (n : nat) (node0 parent0 : option Node) (e : Error) :
  descend n node0 parent0 = inl e ->
  e = TypeError "Cannot read property 'lastChild' of null".
Proof.
  revert node0 parent0. induction n as [|n IH]; intros node0 parent0 H.
  - discriminate H.
  - simpl in H. destruct node0 as [node|]; [now apply IH in H|].
    now injection H as <-.
Qed.

(** X13. When [slice.openRight] asks [replaceSelection] to go below a node
    that does not exist (the node one level above the last has no
    children, or the slice is empty), the loop throws a [TypeError] after
    the replacement has been made: the steps of the edit stay appended, the
    selection is not placed ([curSelection] is the one read at the start,
    [selectionSet] is as before) and no [this] is returned. In every other
    case the loop finds its nodes. *)
Theorem replaceSelection_throws_past_open_depth
    (slice : Slice) (tr tr1 : Transaction) (sel : Selection) :
  selection tr = Ok sel tr1 ->
  completes (replaceSelection_edit slice sel (doc tr1)) = true ->
  let n := Z.to_nat (slice_openRight slice) in
  let tr2 := final (addSteps (appended (replaceSelection_edit slice sel (doc tr1))) tr1) in
  (n <> O /\ last_descendant (pred n) (slice_lastChild slice) = None ->
   replaceSelection slice tr
   = Throw (TypeError "Cannot read property 'lastChild' of null") tr2
   /\ curSelection tr2 = sel
   /\ selectionSet tr2 = selectionSet tr)
  /\ (~ (n <> O /\ last_descendant (pred n) (slice_lastChild slice) = None) ->
      exists bias, replaceSelection_bias slice = inr bias).
Proof.
  intros Hsel Hdone. cbv zeta. split.
  - intros Hdeep. apply descend_fails_iff with (parent0 := None) in Hdeep.
    destruct Hdeep as [e He]. pose proof (descend_error _ _ _ _ He) as ->.
    split.
    + unfold replaceSelection_edit in *.
      unfold replaceSelection, bind. rewrite Hsel. cbv [this].
      rewrite inherited_outcome, Hdone, He. reflexivity.
    + destruct (addSteps_effect (appended (replaceSelection_edit slice sel (doc tr1))) tr1)
        as (_ & _ & H3 & _ & H5 & _).
      destruct (selection_reread sel_map sel_map tr) as (s & t & Hs & Hcur & _).
      destruct (selection_writes_cache_only tr) as (s' & t' & Hs' & Hrest).
      fold selection in Hs. rewrite Hsel in Hs, Hs'.
      injection Hs as <- <-. injection Hs' as <- <-.
      destruct Hrest as (_ & _ & _ & _ & _ & _ & Hu & _).
      rewrite H3, H5. unfold selectionSet. rewrite Hu. auto.
  - intros Hok. unfold replaceSelection_bias.
    destruct (descend _ _ _) as [e|[lastNode lastParent]] eqn:E.
    + exfalso. apply Hok. apply (descend_fails_iff _ _ None). now exists e.
    + eexists. reflexivity.
Qed.

(** X14. [insertText(text, from, to)] with a range never reads or places
    the selection: it is the inherited [deleteRange(from, to)] for an empty
    text, and otherwise [replaceRangeWith(from, to, node)] for the text
    node carrying the stored marks, or else the marks at [from] (asked for
    after the position when [to > from]); [to] is [from] when left out. The
    cached selection, its step count and the flags [selectionSet] and
    [scrolledIntoView] are as before. Without a range, an empty text is
    [deleteSelection()] and any other text is
    [replaceSelectionWith(schema.text(text), true)]. *)
Theorem insertText_by_range_or_selection
    (text : string) (from to : option Z) (tr : Transaction) :
  match from with
  | None =>
      insertText text None to tr
      = if String.eqb text "" then deleteSelection tr
        else replaceSelectionWith (schema_text (doc tr) text None) (JBool true) tr
  | Some f =>
      let t := default f to in
      let marks :=
        match storedMarks tr with
        | Some marks => marks
        | None => rpos_marks (doc_resolve (doc tr) f) (Some (t >? f))
        end in
      let op := fun d =>
        if String.eqb text "" then deleteRange d f t
        else replaceRangeWith d f t (schema_text (doc tr) text (Some marks)) in
      insertText text (Some f) to tr = inherited op tr
      /\ curSelection (final (insertText text (Some f) to tr)) = curSelection tr
      /\ curSelectionFor (final (insertText text (Some f) to tr)) = curSelectionFor tr
      /\ selectionSet (final (insertText text (Some f) to tr)) = selectionSet tr
      /\ scrolledIntoView (final (insertText text (Some f) to tr)) = scrolledIntoView tr
  end.
Proof.
  destruct from as [f|].
  - cbv zeta.
    assert (Heq : insertText text (Some f) to tr
                  = inherited
                      (fun d =>
                         if String.eqb text "" then deleteRange d f (default f to)
                         else replaceRangeWith d f (default f to)
                                (schema_text (doc tr) text
                                   (Some match storedMarks tr with
                                         | Some marks => marks
                                         | None =>
                                             rpos_marks (doc_resolve (doc tr) f)
                                               (Some (default f to >? f))
                                         end))) tr).
    { unfold insertText, bind. cbv [this].
      now destruct (String.eqb text ""). }
    split; [exact Heq|]. rewrite Heq, inherited_final.
    match goal with
    | |- context [addSteps ?l tr] =>
        destruct (addSteps_effect l tr) as (_ & _ & H3 & H4 & H5 & H6 & _)
    end.
    auto.
  - unfold insertText, bind. cbv [this].
    now destruct (String.eqb text "").
Qed.

(** X15. [deleteSelection()] reads the selection and hands its range to the
    inherited [deleteRange]; it returns the transaction when that
    completes and throws what it throws otherwise. It never places the
    selection: the cached selection is the one read at the start,
    [selectionSet] and [scrolledIntoView] are as before the call. *)
Theorem deleteSelection_leaves_selection_unplaced
    (tr tr1 : Transaction) (sel : Selection) :
  selection tr = Ok sel tr1 ->
  let e := deleteRange (doc tr1) (sel_from sel) (sel_to sel) in
  let tr2 := final (addSteps (appended e) tr1) in
  deleteSelection tr
  = (if completes e then Ok RetThis tr2 else Throw TransformError tr2)
  /\ curSelection tr2 = sel
  /\ curSelectionFor tr2 = curSelectionFor tr1
  /\ selectionSet tr2 = selectionSet tr
  /\ scrolledIntoView tr2 = scrolledIntoView tr.
Proof.
  intros Hsel. cbv zeta. split.
  - unfold deleteSelection, bind. rewrite Hsel.
    exact (inherited_outcome
             (fun d => deleteRange d (sel_from sel) (sel_to sel)) tr1).
  - destruct (addSteps_effect
                (appended (deleteRange (doc tr1) (sel_from sel) (sel_to sel))) tr1)
      as (_ & _ & H3 & H4 & H5 & H6 & _).
    destruct (selection_reread sel_map sel_map tr) as (s & t & Hs & Hcur & _).
    destruct (selection_writes_cache_only tr) as (s' & t' & Hs' & Hrest).
    fold selection in Hs. rewrite Hsel in Hs, Hs'.
    injection Hs as <- <-. injection Hs' as <- <-.
    destruct Hrest as (_ & _ & _ & _ & _ & _ & Hu & _).
    rewrite H3, H4, H5, H6. unfold selectionSet, scrolledIntoView. rewrite Hu. auto.
Qed.

(** X16. A selection that is up to date (just read, or just set) is, after
    steps are appended, mapped on the next read through the maps of
    exactly those steps, in order, in the document the last of them
    produced; the read then marks it valid for all steps. *)
Theorem selection_follows_appended_steps
    (l : list (Step * Doc)) (tr : Transaction) :
  maps_in_step tr ->
  curSelectionFor tr = steps_length tr ->
  l <> [] ->
  let tr2 := final (addSteps l tr) in
  let m := mapping_slice (maps tr2) (curSelectionFor tr2) in
  let s := sel_map (curSelection tr) (doc tr2) m in
  selection tr2 = Ok s (set_curSelectionFor (steps_length tr2) (set_curSelection s tr2))
  /\ active_maps m = step_getMap <$> l.*1
  /\ (exists sd, last l = Some sd /\ doc tr2 = sd.2)
  /\ (exists tr',
         selection tr2 = Ok s tr'
         /\ curSelection tr' = s
         /\ curSelectionFor tr' = Z.of_nat (length (steps tr) + length l)
         /\ steps tr' = steps tr ++ l.*1).
Proof.
  intros Hm Hfor Hl. cbv zeta.
  destruct (addSteps_effect l tr) as (H1 & H2 & H3 & H4 & _).
  assert (Hread : selection (final (addSteps l tr))
                  = Ok (sel_map (curSelection tr) (doc (final (addSteps l tr)))
                          (mapping_slice (maps (final (addSteps l tr)))
                             (curSelectionFor (final (addSteps l tr)))))
                       (set_curSelectionFor (steps_length (final (addSteps l tr)))
                          (set_curSelection
                             (sel_map (curSelection tr) (doc (final (addSteps l tr)))
                                (mapping_slice (maps (final (addSteps l tr)))
                                   (curSelectionFor (final (addSteps l tr)))))
                             (final (addSteps l tr))))).
  { unfold selection. rewrite selection_final, H3, H4, Hfor.
    replace (steps_length tr <? steps_length (final (addSteps l tr))) with true;
      [reflexivity|].
    symmetry. apply Z.ltb_lt. unfold steps_length. rewrite H1, length_app, length_fmap.
    destruct l; [contradiction | simpl; lia]. }
  split; [exact Hread|]. split; [|split].
  - rewrite H4, Hfor, active_maps_slice by apply steps_length_nonneg.
    unfold steps_length. rewrite Nat2Z.id, H2. unfold maps_in_step in Hm.
    rewrite <- Hm. apply drop_app_length.
  - rewrite addSteps_doc. destruct (last l) as [sd|] eqn:E; [now exists sd|].
    now apply last_None in E.
  - eexists. split; [exact Hread|]. split; [reflexivity|].
    cbn [curSelectionFor steps set_curSelectionFor set_curSelection].
    unfold steps_length. rewrite H1, length_app, length_fmap. now split.
Qed.

End MoreEdits.

(** *** The further properties at work on the sample data *)

(** A value stored under a string is read back through a plugin key of
    that name. *)
Lemma getMeta_after_setMeta_witness :
  exists tr',
    setMeta (C := flat_lib) (JStr "pointer") (JBool true) flat_tr = Ok RetThis tr'
    /\ getMeta (C := flat_lib) pointer_key tr' = Ok (JBool true) tr'.
Proof.
  destruct (getMeta_after_setMeta (C := flat_lib) (JStr "pointer") pointer_key
              (JBool true) "pointer" "pointer" flat_tr eq_refl eq_refl)
    as (tr' & Hset & Hget & _).
  exists tr'. split; [exact Hset | exact Hget].
Defined.

(** A property never stored reads as [undefined]. *)
Lemma getMeta_reads_without_writing_witness :
  getMeta (C := flat_lib) (JStr "pointer") flat_tr = Ok JUndefined flat_tr.
Proof.
  apply (proj1 (proj2 (proj2 (getMeta_reads_without_writing (C := flat_lib)
                                (JStr "pointer") flat_tr))) "pointer");
    reflexivity.
Defined.

(** Replacing the selection touches neither the metadata nor the time. *)
Lemma metadata_and_time_have_one_writer_witness :
  meta (final (call (C := flat_lib) (CallReplaceSelection (C := flat_lib) paragraph_slice)
                 flat_tr))
  = meta flat_tr
  /\ time (final (call (C := flat_lib)
                    (CallReplaceSelection (C := flat_lib) paragraph_slice) flat_tr))
     = time flat_tr.
Proof.
  split.
  - apply (proj1 (metadata_and_time_have_one_writer (C := flat_lib)
                    (CallReplaceSelection (C := flat_lib) paragraph_slice) flat_tr)).
    reflexivity.
  - apply (proj1 (proj2 (metadata_and_time_have_one_writer (C := flat_lib)
                           (CallReplaceSelection (C := flat_lib) paragraph_slice)
                           flat_tr))).
    reflexivity.
Defined.

(** A selection set by [replaceSelection] stays set through a deletion. *)
Lemma selection_and_scroll_flags_stay_set_witness :
  selectionSet (C := flat_lib)
    (final (call (C := flat_lib) (CallDeleteSelection (C := flat_lib))
              (final (replaceSelection (C := flat_lib) paragraph_slice flat_tr))))
  = true.
Proof.
  apply (proj1 (proj2 (selection_and_scroll_flags_stay_set (C := flat_lib)
                         (final (replaceSelection (C := flat_lib) paragraph_slice
                                   flat_tr))))).
  reflexivity.
Defined.

(** The log is in step after a [replaceSelection]. *)
Lemma step_log_stays_consistent_witness :
  log_consistent (C := flat_lib)
    (final (call (C := flat_lib) (CallReplaceSelection (C := flat_lib) paragraph_slice)
              flat_tr)).
Proof.
  apply (proj1 (proj2 (step_log_stays_consistent (C := flat_lib)))).
  split; reflexivity.
Defined.

(** Setting the time leaves the log alone. *)
Lemma steps_are_only_appended_witness :
  steps (final (call (C := flat_lib) (CallSetTime (C := flat_lib) 7) flat_tr_pending))
  = steps flat_tr_pending.
Proof.
  apply (proj2 (proj2 (steps_are_only_appended (C := flat_lib)
                         (CallSetTime (C := flat_lib) 7) flat_tr_pending))).
  reflexivity.
Defined.

(** Two characters of text over [3, 5): the selection lands at 5. *)
Lemma replaceSelectionWith_places_selection_witness :
  exists tr',
    replaceSelectionWith (C := flat_lib) text2 (JBool true) flat_tr = Ok RetThis tr'
    /\ curSelection tr' = mkFlatSelection 5 5
    /\ selectionSet (C := flat_lib) tr' = true.
Proof.
  destruct (replaceSelectionWith_places_selection (C := flat_lib)
              text2 (JBool true) flat_tr flat_tr (mkFlatSelection 3 5)
              [] [(3, 5, 3, 5)] 10 (3, 5, 3, 5)
              eq_refl eq_refl eq_refl eq_refl)
    as (tr' & Hcall & _ & Hcur & _ & _ & Hset & _).
  exists tr'. split; [exact Hcall|]. split; [exact Hcur | exact Hset].
Defined.

(** A paragraph over [3, 5): the selection lands at 7. *)
Lemma replaceSelection_places_selection_witness :
  exists tr',
    replaceSelection (C := flat_lib) paragraph_slice flat_tr = Ok RetThis tr'
    /\ curSelection tr' = mkFlatSelection 7 7
    /\ selectionSet (C := flat_lib) tr' = true.
Proof.
  destruct (replaceSelection_places_selection (C := flat_lib)
              paragraph_slice flat_tr flat_tr (mkFlatSelection 3 5)
              [] [(3, 5, 3, 7)] 12 (3, 5, 3, 7) 1
              eq_refl eq_refl eq_refl eq_refl eq_refl)
    as (tr' & Hcall & _ & Hcur & _ & _ & Hset & _).
  exists tr'. split; [exact Hcall|]. split; [exact Hcur | exact Hset].
Defined.

(** Deleting a collapsed selection does nothing. *)
Lemma edits_without_steps_change_nothing_witness :
  final (deleteSelection (C := flat_lib) flat_tr_collapsed) = flat_tr_collapsed.
Proof.
  apply (proj1 (proj2 (proj2 (edits_without_steps_change_nothing (C := flat_lib)
                                flat_tr_collapsed flat_tr_collapsed
                                (mkFlatSelection 3 3) eq_refl))));
    reflexivity.
Defined.

(** An empty paragraph has no child to descend into at the second level. *)
Lemma replaceSelection_throws_past_open_depth_witness :
  replaceSelection (C := flat_lib) overopen_slice flat_tr
  = Throw (TypeError "Cannot read property 'lastChild' of null")
      (final (addSteps (C := flat_lib) [([(3, 5, 3, 5)], 10)] flat_tr)).
Proof.
  apply (proj1 (replaceSelection_throws_past_open_depth (C := flat_lib)
                  overopen_slice flat_tr flat_tr (mkFlatSelection 3 5)
                  eq_refl eq_refl)).
  split; [discriminate | reflexivity].
Defined.

(** Deleting [3, 5) leaves the cached selection to be mapped later. *)
Lemma deleteSelection_leaves_selection_unplaced_witness :
  deleteSelection (C := flat_lib) flat_tr
  = Ok RetThis (final (addSteps (C := flat_lib) [([(3, 5, 3, 3)], 8)] flat_tr))
  /\ selectionSet (C := flat_lib)
       (final (addSteps (C := flat_lib) [([(3, 5, 3, 3)], 8)] flat_tr))
     = false.
Proof.
  destruct (deleteSelection_leaves_selection_unplaced (C := flat_lib)
              flat_tr flat_tr (mkFlatSelection 3 5) eq_refl)
    as (Hcall & _ & _ & Hset & _).
  split; [exact Hcall | exact Hset].
Defined.

(** After an insertion of two positions at 1 the selection [3, 5) reads as
    [5, 7). *)
Lemma selection_follows_appended_steps_witness :
  selection (C := flat_lib)
    (final (addSteps (C := flat_lib) [([(1, 1, 1, 3)], 12)] flat_tr))
  = Ok (mkFlatSelection 5 7)
       (set_curSelectionFor (C := flat_lib) 1
          (set_curSelection (C := flat_lib) (mkFlatSelection 5 7)
             (final (addSteps (C := flat_lib) [([(1, 1, 1, 3)], 12)] flat_tr)))).
Proof.
  apply (selection_follows_appended_steps (C := flat_lib)
           [([(1, 1, 1, 3)], 12)] flat_tr).
  - reflexivity.
  - reflexivity.
  - discriminate.
Defined.
